(** * Deterministic real-time simulation engine: fixed-step scheduler

    A shallow embedding of [src/main.cpp].  The C++ [double] is the kernel's
    binary64 [float] (round to nearest even, one multiplication and one
    addition per source operator, no contraction), [int64_t] is a [Z] with
    its two's-complement wrap written out, the global [std::deque<Command>]
    is a [list Command] threaded through the functions that touch it, and
    the body of [while (true)] in [main] is a function from the loop's
    variables and one clock sample to the loop's variables and the line it
    prints. *)

From Stdlib Require Import ZArith List Bool Lia Floats.
From Stdlib Require Uint63.
Import ListNotations.

Set Warnings "-inexact-float".

Local Open Scope float_scope.

(** ** Constants (main.cpp:14-20, 115) *)

Definition MAX_DT_SECONDS : float := 0.05.
Definition FIXED_DT_SECONDS : float := 0.01.
Definition MAX_SIMULATION_STEPS_PER_FRAME : nat := 5.
Definition MAX_COMMAND_QUEUE_SIZE : nat := 32.
Definition MAX_COMMANDS_PER_STEP : nat := 4.

(** ** Data model (main.cpp:22-31, 45-49) *)

Inductive CommandType := Accelerate | Stop.

Record Command := mkCommand {
  type : CommandType;
  value : float
}.

Record SystemState := mkState {
  position : float;
  velocity : float;
  valid : bool
}.

(** The global [commandQueue]: front of the deque is the head of the list. *)
Definition CommandQueue := list Command.

(** ** Integrator (main.cpp:51-60) *)

Definition updateSystem (state : SystemState) (dtSeconds : float) : SystemState :=
  if negb (valid state) then state
  else
    let p := position state + velocity state * dtSeconds in
    if p <? 0 then mkState 0 0 false
    else mkState p (velocity state) (valid state).

(** ** Command intake (main.cpp:62-68)

    Returns the [bool] of the C++ function together with the queue it
    leaves behind. *)

Definition enqueueCommand (cmd : Command) (commandQueue : CommandQueue)
  : bool * CommandQueue :=
  if (MAX_COMMAND_QUEUE_SIZE <=? length commandQueue)%nat
  then (false, commandQueue)
  else (true, commandQueue ++ [cmd]).

(** A burst of intake calls, oldest first: the answers, in order, and the
    queue after the last call. *)
Fixpoint enqueueAll (cmds : list Command) (commandQueue : CommandQueue)
  : list bool * CommandQueue :=
  match cmds with
  | [] => ([], commandQueue)
  | c :: rest =>
      let (ok, q1) := enqueueCommand c commandQueue in
      let (oks, q2) := enqueueAll rest q1 in
      (ok :: oks, q2)
  end.

(** ** Command application (main.cpp:70-80) *)

Definition applyCommand (state : SystemState) (cmd : Command) : SystemState :=
  if negb (valid state) then state
  else
    match type cmd with
    | Accelerate =>
        mkState (position state) (velocity state + value cmd) (valid state)
    | Stop => mkState (position state) 0 (valid state)
    end.

(** ** Interpolation (main.cpp:82-87) *)

Definition interpolateState (prev curr : SystemState) (alpha : float)
  : SystemState :=
  mkState (position prev * (1 - alpha) + position curr * alpha)
          (velocity prev * (1 - alpha) + velocity curr * alpha)
          (valid curr).

(** ** What the simulation layer reads and writes: [currentState],
    [previousState] and [timeAccumulator] of [main] (main.cpp:90-93) and
    the global queue *)

Record World := mkWorld {
  currentState : SystemState;
  previousState : SystemState;
  timeAccumulator : float;
  commandQueue : CommandQueue
}.

(** ** The command drain of one tick (main.cpp:116-121)

    [budget] is [MAX_COMMANDS_PER_STEP - processed]: the loop stops on an
    empty queue or a spent budget. *)

Fixpoint drainCommands (budget : nat) (state : SystemState) (q : CommandQueue)
  : SystemState * CommandQueue :=
  match budget, q with
  | S budget', cmd :: q' => drainCommands budget' (applyCommand state cmd) q'
  | _, _ => (state, q)
  end.

(** ** One simulation tick: the body of the inner loop (main.cpp:113-125) *)

Definition tick (w : World) : World :=
  let previous := currentState w in
  let (state, q) :=
    drainCommands MAX_COMMANDS_PER_STEP (currentState w) (commandQueue w) in
  mkWorld (updateSystem state FIXED_DT_SECONDS)
          previous
          (timeAccumulator w - FIXED_DT_SECONDS)
          q.

(** ** The fixed-step loop (main.cpp:112-126)

    [remaining] is [MAX_SIMULATION_STEPS_PER_FRAME - stepsThisFrame].  The
    result lists the world after each tick that ran, oldest first; its
    length is [stepsThisFrame] at loop exit. *)

Fixpoint stepLoop (remaining : nat) (w : World) : list World :=
  match remaining with
  | O => []
  | S remaining' =>
      if FIXED_DT_SECONDS <=? timeAccumulator w
      then let w' := tick w in w' :: stepLoop remaining' w'
      else []
  end.

Definition setAccumulator (a : float) (w : World) : World :=
  mkWorld (currentState w) (previousState w) a (commandQueue w).

Definition setQueue (q : CommandQueue) (w : World) : World :=
  mkWorld (currentState w) (previousState w) (timeAccumulator w) q.

(** What one frame hands to the outside: the worlds after each tick, the
    answers of the intake calls, and the interpolated state it prints. *)
Record FrameOutput := mkOutput {
  ticks : list World;
  accepted : list bool;
  visualState : SystemState
}.

(** ** One frame from the clamped delta on (main.cpp:107-138)

    [burst] is what the input side enqueues in this frame (main.cpp:132-134
    enqueues ten [Accelerate 0.1]). *)

Definition frame (dtSeconds : float) (burst : list Command) (w : World)
  : World * FrameOutput :=
  let w1 := setAccumulator (timeAccumulator w + dtSeconds) w in
  let ws := stepLoop MAX_SIMULATION_STEPS_PER_FRAME w1 in
  let w2 := last ws w1 in
  let stepsThisFrame := length ws in
  let w3 := if (stepsThisFrame =? MAX_SIMULATION_STEPS_PER_FRAME)%nat
            then setAccumulator 0 w2 else w2 in
  let (oks, q) := enqueueAll burst (commandQueue w3) in
  let w4 := setQueue q w3 in
  let alpha := timeAccumulator w4 / FIXED_DT_SECONDS in
  (w4, mkOutput ws oks
         (interpolateState (previousState w4) (currentState w4) alpha)).

(** ** Time sampling and clamping (main.cpp:98-106) *)

(** [int64_t] arithmetic: the result of a subtraction, reduced to the
    two's-complement range. *)
Definition wrap64 (z : Z) : Z :=
  ((z + 2 ^ 63) mod 2 ^ 64 - 2 ^ 63)%Z.

(** The conversion [int64_t -> double] of [dtMs / 1000.0]: the nearest
    binary64 value.  [of_uint63] rounds a 63-bit natural number; the one
    [int64_t] whose magnitude is not such a number is [-2^63], a power of
    two. *)
Definition double_of_int64 (z : Z) : float :=
  if (z <? 0)%Z then
    if (z =? - 2 ^ 63)%Z then (- 0x1p63)
    else - of_uint63 (Uint63.of_Z (- z))
  else of_uint63 (Uint63.of_Z z).

Definition clampDt (dtMs : Z) : float :=
  let dtSeconds := double_of_int64 dtMs / 1000 in
  if MAX_DT_SECONDS <? dtSeconds then MAX_DT_SECONDS else dtSeconds.

(** The line [main] prints at the end of a frame (main.cpp:140-141). *)
Record Line := mkLine {
  line_t : Z;
  line_dt : Z;
  line_state : SystemState
}.

Definition inputBurst : list Command :=
  repeat (mkCommand Accelerate 0.1) 10.

(** All variables of [main]'s loop: the time anchor and the simulation
    layer's state. *)
Record MainState := mkMain {
  lastTickMs : Z;
  world : World
}.

(** ** One iteration of [while (true)] (main.cpp:95-143); [now] is what
    [nowMs()] returns at main.cpp:98. *)
Definition mainFrame (now : Z) (m : MainState)
  : MainState * (FrameOutput * Line) :=
  let dtMs := wrap64 (now - lastTickMs m) in
  let (w', out) := frame (clampDt dtMs) inputBurst (world m) in
  (mkMain now w', (out, mkLine now dtMs (visualState out))).

(** ** [main] before its loop (main.cpp:90-93)

    [previousState] is declared without an initializer: its value is
    whatever the stack holds, here the parameter [garbage].  [start] is the
    clock sample of main.cpp:92. *)
Definition initialState : SystemState := mkState 0 1 true.

Definition initWorld (s0 garbage : SystemState) : World :=
  mkWorld s0 garbage 0 [].

Definition mainInit (garbage : SystemState) (start : Z) : MainState :=
  mkMain start (initWorld initialState garbage).

(** ** Finite prefixes of the endless loop *)

Fixpoint runFrames (inputs : list (float * list Command)) (w : World)
  : World * list FrameOutput :=
  match inputs with
  | [] => (w, [])
  | (dtSeconds, burst) :: rest =>
      let (w1, out) := frame dtSeconds burst w in
      let (w2, outs) := runFrames rest w1 in
      (w2, out :: outs)
  end.

Fixpoint runMain (clock : list Z) (m : MainState)
  : MainState * list (FrameOutput * Line) :=
  match clock with
  | [] => (m, [])
  | now :: rest =>
      let (m1, out) := mainFrame now m in
      let (m2, outs) := runMain rest m1 in
      (m2, out :: outs)
  end.

(** The clamped delta and the burst of each frame of [main], from the
    clock samples. *)
Fixpoint clockInputs (last : Z) (clock : list Z) : list (float * list Command) :=
  match clock with
  | [] => []
  | now :: rest =>
      (clampDt (wrap64 (now - last)), inputBurst) :: clockInputs now rest
  end.

(** The [SystemState] after each tick, over all frames, oldest first. *)
Definition stateTrace (outs : list FrameOutput) : list SystemState :=
  map currentState (concat (map ticks outs)).

(** ** Values of [timeAccumulator]

    Every value the variable holds in one frame: after the addition
    (main.cpp:107), after each tick (main.cpp:124), and when the frame ends
    (after main.cpp:128-130). *)
Definition accumulatorPoints (dtSeconds : float) (burst : list Command)
  (w : World) : list float :=
  let (w', out) := frame dtSeconds burst w in
  (timeAccumulator w + dtSeconds)
    :: map timeAccumulator (ticks out) ++ [timeAccumulator w'].

Fixpoint accumulatorTrace (inputs : list (float * list Command)) (w : World)
  : list float :=
  match inputs with
  | [] => []
  | (dtSeconds, burst) :: rest =>
      accumulatorPoints dtSeconds burst w
        ++ accumulatorTrace rest (fst (frame dtSeconds burst w))
  end.

(** [stepsThisFrame] and [timeAccumulator] at the end of each frame. *)
Fixpoint frameEnds (inputs : list (float * list Command)) (w : World)
  : list (nat * float) :=
  match inputs with
  | [] => []
  | (dtSeconds, burst) :: rest =>
      let (w', out) := frame dtSeconds burst w in
      (length (ticks out), timeAccumulator w') :: frameEnds rest w'
  end.

(** How many iterations the loop of main.cpp:112 would make on the time
    condition alone, counted up to [bound]. *)
Fixpoint ticksOwed (bound : nat) (acc : float) : nat :=
  match bound with
  | O => O
  | S bound' =>
      if FIXED_DT_SECONDS <=? acc
      then S (ticksOwed bound' (acc - FIXED_DT_SECONDS))
      else O
  end.

(** A clock that never goes back, sampled at main.cpp:92 ([last]) and then
    once per frame; the differences stay within [int64_t], so that the
    subtraction of main.cpp:99 does not overflow. *)
Fixpoint steadyClock (last : Z) (clock : list Z) : Prop :=
  match clock with
  | [] => True
  | now :: rest =>
      (last <= now)%Z /\ (now - last < 2 ^ 63)%Z /\ steadyClock now rest
  end.

(** The time condition of main.cpp:112 fails in every frame of [dts] when
    the accumulator starts at [acc]: no tick has run yet. *)
Fixpoint belowTick (acc : float) (dts : list float) : Prop :=
  match dts with
  | [] => True
  | dt :: rest =>
      (FIXED_DT_SECONDS <=? acc + dt) = false /\ belowTick (acc + dt) rest
  end.

(** What such frames display: the blend of [previous] and [current] at the
    accumulated fraction of a tick. *)
Fixpoint preTickDisplays (previous current : SystemState) (acc : float)
  (dts : list float) : list SystemState :=
  match dts with
  | [] => []
  | dt :: rest =>
      interpolateState previous current ((acc + dt) / FIXED_DT_SECONDS)
        :: preTickDisplays previous current (acc + dt) rest
  end.

(** Two worlds that agree on everything the simulation layer reads:
    [previousState] is only written by a tick and only read for display. *)
Definition sameSimulation (a b : World) : Prop :=
  currentState a = currentState b
  /\ timeAccumulator a = timeAccumulator b
  /\ commandQueue a = commandQueue b.

(** Scenario B: forty [Accelerate 0.1] offered to the empty queue before
    any tick, then one tick from state [s]. *)
Definition floodBurst : list Command :=
  repeat (mkCommand Accelerate 0.1) 40.

Definition floodAnswers : list bool := fst (enqueueAll floodBurst []).

Definition floodQueue : CommandQueue := snd (enqueueAll floodBurst []).

Definition floodTick (s previous : SystemState) (acc : float) : World :=
  tick (mkWorld s previous acc floodQueue).

(** What [main] displays over the clock samples [clock], started at
    [start] with [garbage] in [previousState]. *)
Definition mainDisplays (garbage : SystemState) (start : Z) (clock : list Z)
  : list SystemState :=
  map (fun o => line_state (snd o)) (snd (runMain clock (mainInit garbage start))).

(** ** Predicates on states and commands *)

(** What the integrator establishes: a valid state has no negative
    position, an invalid one rests at position 0 with velocity 0. *)
Definition settled (s : SystemState) : Prop :=
  if valid s then (position s <? 0) = false
  else position s = 0 /\ velocity s = 0.

(** A valid state with position and velocity at least 0 (so neither is a
    NaN). *)
Definition forward (s : SystemState) : Prop :=
  valid s = true
  /\ (0 <=? position s) = true
  /\ (0 <=? velocity s) = true.

(** A command that cannot push the velocity below 0: [Stop], or
    [Accelerate] by at least 0. *)
Definition gentle (cmd : Command) : Prop :=
  match type cmd with
  | Accelerate => (0 <=? value cmd) = true
  | Stop => True
  end.

(** The states [main] goes through over the clock samples [clock]: after
    each tick, oldest first. *)
Definition mainStates (garbage : SystemState) (start : Z) (clock : list Z)
  : list SystemState :=
  stateTrace (map fst (snd (runMain clock (mainInit garbage start)))).

(** A finite double with its sign bit clear: [+0] or a positive finite
    number. *)
Definition ordinary (x : float) : bool :=
  match Prim2SF x with
  | S754_zero s | S754_finite s _ _ => negb s
  | _ => false
  end.

(** ** Classes of binary64 values, on their specification side *)

(** Zero of either sign, a positive finite number or plus infinity. *)
Definition SFnonneg (x : spec_float) : bool :=
  match x with
  | S754_zero _ => true
  | S754_infinity s => negb s
  | S754_nan => false
  | S754_finite s _ _ => negb s
  end.

Definition SFfinite (x : spec_float) : bool :=
  match x with
  | S754_zero _ | S754_finite _ _ _ => true
  | _ => false
  end.

Definition SFis_nan (x : spec_float) : bool :=
  match x with
  | S754_nan => true
  | _ => false
  end.

(** Round to nearest, ties to even, of [M / 2^n]. *)
Definition rne (M n : Z) : Z :=
  let q := (M / 2 ^ n)%Z in
  let r := (M mod 2 ^ n)%Z in
  let h := (2 ^ (n - 1))%Z in
  if (r <? h)%Z then q
  else if (r =? h)%Z then (if Z.even q then q else (q + 1)%Z)
  else (q + 1)%Z.

(** Round to nearest, ties to even, of the fraction [A / C]. *)
Definition rneq (A C : Z) : Z :=
  let q := (A / C)%Z in
  match (2 * (A mod C) ?= C)%Z with
  | Lt => q
  | Eq => if Z.even q then q else (q + 1)%Z
  | Gt => (q + 1)%Z
  end.

(** The last step of [binary_round_aux]. *)
Definition finite_or_inf (m e : Z) : spec_float :=
  match m with
  | Z0 => S754_zero false
  | Zpos p =>
      if (e <=? emax - prec)%Z then S754_finite false p e
      else S754_infinity false
  | Zneg _ => S754_nan
  end.

(** * Facts about binary64 arithmetic

    The kernel's operations are specified by [SpecFloat]'s functions on
    [spec_float] (sign, mantissa, exponent); the lemmas below are proved on
    that side and carried to [float] by the specification of each
    operation. *)

Module Double.

Lemma SFleb_zero_nonneg (x : spec_float) :
  SFleb (S754_zero false) x = SFnonneg x.
Proof. destruct x as [s|s| |s m e]; try destruct s; reflexivity. Qed.

Lemma SFnonneg_not_nan (x : spec_float) : SFnonneg x = true -> SFis_nan x = false.
Proof. destruct x; simpl; congruence. Qed.

Section Rounding.
Variables prec emax : Z.

Lemma iter_pos_inv {A : Type} (f : A -> A) (P : A -> Prop) :
  (forall x, P x -> P (f x)) ->
  forall n x, P x -> P (iter_pos f n x).
Proof.
  intros Hf n; induction n as [n IH|n IH|]; intros x Hx; simpl; auto.
Qed.

Lemma shr_1_nonneg (mrs : shr_record) :
  (0 <= shr_m mrs)%Z -> (0 <= shr_m (shr_1 mrs))%Z.
Proof.
  destruct mrs as [m r s]; simpl; intros Hm.
  destruct m as [|p|p]; [simpl; lia | | lia].
  destruct p; simpl; lia.
Qed.

Lemma shr_nonneg (mrs : shr_record) (e n : Z) :
  (0 <= shr_m mrs)%Z -> (0 <= shr_m (fst (shr mrs e n)))%Z.
Proof.
  intros Hm; unfold shr; destruct n as [|p|p]; simpl; auto.
  apply (iter_pos_inv shr_1 (fun r => (0 <= shr_m r)%Z)); auto using shr_1_nonneg.
Qed.

Lemma shr_m_of_loc (m : Z) (l : location) : shr_m (shr_record_of_loc m l) = m.
Proof. destruct l as [|[ | | ]]; reflexivity. Qed.

Lemma shr_fexp_nonneg (m e : Z) (l : location) :
  (0 <= m)%Z -> (0 <= shr_m (fst (shr_fexp prec emax m e l)))%Z.
Proof.
  intros Hm; unfold shr_fexp; apply shr_nonneg; now rewrite shr_m_of_loc.
Qed.

Lemma round_nearest_even_nonneg (m : Z) (l : location) :
  (0 <= m)%Z -> (0 <= round_nearest_even m l)%Z.
Proof.
  intros Hm; destruct l as [|[ | | ]]; simpl; try lia.
  destruct (Z.even m); lia.
Qed.

(** Rounding a non-negative mantissa under a plus sign gives zero, a
    positive number or plus infinity, never a NaN. *)
Lemma binary_round_aux_nonneg (mx ex : Z) (lx : location) :
  (0 <= mx)%Z -> SFnonneg (binary_round_aux prec emax false mx ex lx) = true.
Proof.
  intros Hm; unfold binary_round_aux.
  pose proof (shr_fexp_nonneg mx ex lx Hm) as H1.
  destruct (shr_fexp prec emax mx ex lx) as [mrs1 e1]; simpl in H1.
  pose proof (shr_fexp_nonneg _ e1 loc_Exact
                (round_nearest_even_nonneg _ (loc_of_shr_record mrs1) H1)) as H2.
  destruct (shr_fexp prec emax _ e1 loc_Exact) as [mrs2 e2]; simpl in H2.
  destruct (shr_m mrs2) as [|p|p]; [reflexivity | | lia].
  destruct (e2 <=? emax - prec)%Z; reflexivity.
Qed.

Lemma binary_round_nonneg (m : positive) (e : Z) :
  SFnonneg (binary_round prec emax false m e) = true.
Proof.
  unfold binary_round; destruct (shl_align _ _ _) as [mz ez].
  apply binary_round_aux_nonneg; lia.
Qed.

Lemma binary_normalize_nonneg (m e : Z) (szero : bool) :
  (0 <= m)%Z -> SFnonneg (binary_normalize prec emax m e szero) = true.
Proof.
  intros Hm; destruct m as [|p|p]; simpl; [reflexivity | | lia].
  apply binary_round_nonneg.
Qed.

(** The sum of two non-negative numbers is non-negative. *)
Lemma SFadd_nonneg (x y : spec_float) :
  SFnonneg x = true -> SFnonneg y = true ->
  SFnonneg (SFadd prec emax x y) = true.
Proof.
  destruct x as [sx|sx| |sx mx ex]; destruct y as [sy|sy| |sy my ey];
    cbn [SFadd SFnonneg]; try congruence;
    try (destruct sx, sy; cbn [SFnonneg negb]; congruence).
  destruct sx, sy; cbn [negb cond_Zopp]; try congruence; intros _ _.
  apply binary_normalize_nonneg; lia.
Qed.

(** *** Mantissa size *)

Lemma digits2_pos_bounds (m : positive) :
  (2 ^ (Zpos (digits2_pos m) - 1) <= Zpos m < 2 ^ Zpos (digits2_pos m))%Z.
Proof.
  induction m as [p IH|p IH|]; cbn [digits2_pos];
    [ | | cbn; lia ];
    rewrite Pos2Z.inj_succ;
    replace (Z.succ (Zpos (digits2_pos p)) - 1)%Z
      with (Z.succ (Zpos (digits2_pos p) - 1))%Z by lia;
    rewrite !Z.pow_succ_r by lia; lia.
Qed.

Lemma iter_xO_ge (m d : positive) : (2 * Zpos m <= Zpos (Pos.iter xO m d))%Z.
Proof.
  induction d as [|d IH] using Pos.peano_ind.
  - cbn; lia.
  - rewrite Pos.iter_succ; lia.
Qed.

Lemma shl_align_same (m : positive) (e : Z) : shl_align m e e = (m, e).
Proof. unfold shl_align; now rewrite Z.sub_diag. Qed.

Lemma canonical_digits (m : positive) (e : Z) :
  canonical_mantissa prec emax m e = true ->
  (SpecFloat.emin prec emax <= e)%Z /\
  (Zpos (digits2_pos m) <= prec)%Z /\
  ((SpecFloat.emin prec emax < e)%Z -> Zpos (digits2_pos m) = prec).
Proof.
  unfold canonical_mantissa, fexp; intros H.
  apply Z.eqb_eq in H. lia.
Qed.

Lemma valid_finite_digits (s : bool) (m : positive) (e : Z) :
  SpecFloat.valid_binary prec emax (S754_finite s m e) = true ->
  (SpecFloat.emin prec emax <= e)%Z /\
  (Zpos (digits2_pos m) <= prec)%Z /\
  ((SpecFloat.emin prec emax < e)%Z -> Zpos (digits2_pos m) = prec).
Proof.
  cbn [SpecFloat.valid_binary]; unfold bounded; intros H.
  apply andb_true_iff in H; apply canonical_digits, H.
Qed.

(** *** Subtraction below the minuend

    For canonical operands, [y <= x] with [y] finite and non-negative makes
    [x - y] non-negative: the aligned mantissa of [x] is at least that of
    [y]. *)
Lemma SFsub_nonneg (x y : spec_float) :
  SpecFloat.valid_binary prec emax x = true -> SpecFloat.valid_binary prec emax y = true ->
  SFfinite y = true -> SFnonneg y = true ->
  SFleb y x = true ->
  SFnonneg (SFsub prec emax x y) = true.
Proof.
  intros Vx Vy Fy Ny Hle.
  destruct y as [sy|sy| |sy my ey]; try discriminate.
  - destruct x as [sx|sx| |sx mx ex]; try discriminate.
    + destruct sx, sy; reflexivity.
    + destruct sx; [discriminate | reflexivity].
    + destruct sx; [discriminate | reflexivity].
  - destruct sy; [discriminate|].
    destruct x as [sx|sx| |sx mx ex]; try discriminate.
    + destruct sx; [discriminate | reflexivity].
    + destruct sx; [discriminate|].
      cbn [SFsub cond_Zopp]. apply binary_normalize_nonneg.
      unfold SFleb in Hle; cbn [SFcompare] in Hle.
      destruct (valid_finite_digits _ _ _ Vx) as (_ & _ & Dx).
      destruct (valid_finite_digits _ _ _ Vy) as (Ey & Dy & _).
      destruct (Z.compare_spec ey ex) as [E|L|G]; [ | | discriminate].
      * subst ey. rewrite Z.min_id, !shl_align_same; cbn [fst].
        change (Pos.compare_cont Eq my mx) with (Pos.compare my mx) in Hle.
        destruct (Pos.compare_spec my mx); try discriminate; subst; lia.
      * rewrite Z.min_r by lia. rewrite shl_align_same; cbn [fst].
        unfold shl_align.
        destruct (ey - ex)%Z as [|d|d] eqn:Ed; try lia; cbn [fst].
        pose proof (iter_xO_ge mx d) as Hd.
        pose proof (digits2_pos_bounds mx) as Bx.
        pose proof (digits2_pos_bounds my) as By.
        rewrite Dx in Bx by lia.
        assert (2 ^ Zpos (digits2_pos my) <= 2 ^ prec)%Z
          by (apply Z.pow_le_mono_r; lia).
        assert (2 ^ prec = 2 * 2 ^ (prec - 1))%Z.
        { replace prec with (Z.succ (prec - 1)) at 1 by lia.
          apply Z.pow_succ_r; lia. }
        lia.
Qed.

(** *** Division by a positive number *)

Lemma SFdiv_nonneg (x : spec_float) (my : positive) (ey : Z) :
  SFnonneg x = true ->
  SFnonneg (SFdiv prec emax x (S754_finite false my ey)) = true.
Proof.
  destruct x as [sx|sx| |sx mx ex]; cbn [SFdiv SFnonneg]; try congruence;
    try (destruct sx; cbn; congruence).
  destruct sx; cbn [negb xorb]; [congruence | intros _].
  unfold SFdiv_core_binary.
  set (s := (ex - ey - _)%Z).
  set (m' := match s with Z0 => _ | Zpos _ => _ | Zneg _ => _ end).
  assert (Hm : (0 <= m')%Z).
  { subst m'; destruct s; try lia. apply Z.shiftl_nonneg; lia. }
  pose proof (Z.div_pos m' (Zpos my) Hm ltac:(lia)) as Hq.
  unfold Z.div in Hq.
  destruct (Z.div_eucl m' (Zpos my)) as [q r]; cbn [fst] in Hq.
  now apply binary_round_aux_nonneg.
Qed.

End Rounding.

(** *** Comparison *)

Lemma SFcompare_antisym (x y : spec_float) :
  SFcompare y x = option_map CompOpp (SFcompare x y).
Proof.
  destruct x as [sx|sx| |sx mx ex]; destruct y as [sy|sy| |sy my ey];
    cbn [SFcompare option_map]; try reflexivity;
    try (destruct sx; reflexivity); try (destruct sy; reflexivity);
    try (destruct sx, sy; reflexivity).
  rewrite (Z.compare_antisym ex ey).
  pose proof (Pos.compare_cont_antisym mx my Eq) as HP; cbn [CompOpp] in HP.
  rewrite <- HP.
  destruct sx, sy; try reflexivity;
    destruct (ex ?= ey)%Z; cbn [CompOpp]; try reflexivity.
Qed.

Lemma SFleb_false_ltb (x y : spec_float) :
  SFis_nan x = false -> SFis_nan y = false ->
  SFleb y x = false -> SFltb x y = true.
Proof.
  intros Nx Ny; unfold SFleb, SFltb.
  rewrite (SFcompare_antisym x y).
  destruct (SFcompare x y) as [[ | | ]|] eqn:E; cbn; try congruence.
  destruct x, y; try discriminate; cbn in E;
    repeat match goal with s : bool |- _ => destruct s end; discriminate.
Qed.

Lemma SFltb_false_leb (x y : spec_float) :
  SFis_nan x = false -> SFis_nan y = false ->
  SFltb y x = false -> SFleb x y = true.
Proof.
  intros Nx Ny; unfold SFleb, SFltb.
  rewrite (SFcompare_antisym x y).
  destruct (SFcompare x y) as [[ | | ]|] eqn:E; cbn; try congruence.
  destruct x, y; try discriminate; cbn in E;
    repeat match goal with s : bool |- _ => destruct s end; discriminate.
Qed.

(** *** Rounding in binary64

    What [binary_round] computes on a positive mantissa, and that it keeps
    the order of the numbers it rounds. *)

Local Open Scope Z_scope.

Lemma iter_pos_nat {A} (f : A -> A) (n : positive) (x : A) :
  iter_pos f n x = Nat.iter (Pos.to_nat n) f x.
Proof.
  revert x; induction n as [n IH|n IH|]; intros x; cbn [iter_pos].
  - rewrite !IH, Pos2Nat.inj_xI.
    replace (S (2 * Pos.to_nat n))%nat with (Pos.to_nat n + (Pos.to_nat n + 1))%nat by lia.
    rewrite !Nat.iter_add. cbn. reflexivity.
  - rewrite !IH, Pos2Nat.inj_xO.
    replace (2 * Pos.to_nat n)%nat with (Pos.to_nat n + Pos.to_nat n)%nat by lia.
    now rewrite Nat.iter_add.
  - reflexivity.
Qed.

Lemma shr_1_spec (q : Z) (r s : bool) :
  0 <= q ->
  shr_1 (Build_shr_record q r s) = Build_shr_record (Z.div2 q) (Z.odd q) (r || s).
Proof.
  intros H. destruct q as [|p|p]; [reflexivity| |lia].
  destruct p; reflexivity.
Qed.

(** After [k+1] single shifts of [M]: the quotient, the bit just shifted
    out, and whether anything below it was set. *)
Lemma shr_iter (k : nat) (M : Z) :
  0 <= M ->
  Nat.iter (S k) shr_1 (Build_shr_record M false false)
  = Build_shr_record (M / 2 ^ Z.of_nat (S k))
      (Z.odd (M / 2 ^ Z.of_nat k))
      (negb (M mod 2 ^ Z.of_nat k =? 0)).
Proof.
  intros HM. induction k as [|k IH].
  - cbn [Nat.iter]. rewrite shr_1_spec by exact HM.
    rewrite Z.div2_div. cbn [Z.of_nat]. rewrite Z.pow_0_r, Z.div_1_r, Z.mod_1_r.
    reflexivity.
  - change (Nat.iter (S (S k)) shr_1 ?x) with (shr_1 (Nat.iter (S k) shr_1 x)).
    rewrite IH, shr_1_spec by (apply Z.div_pos; lia).
    rewrite Z.div2_div, Z.div_div by lia.
    replace (2 ^ Z.of_nat (S k) * 2) with (2 ^ Z.of_nat (S (S k)))
      by (rewrite (Nat2Z.inj_succ (S k)), Z.pow_succ_r; lia).
    f_equal.
    set (P := 2 ^ Z.of_nat k). assert (0 < P) by (apply Z.pow_pos_nonneg; lia).
    replace (2 ^ Z.of_nat (S k)) with (2 * P)
      by (rewrite Nat2Z.inj_succ, Z.pow_succ_r; subst P; lia).
    pose proof (Z.div_mod M P ltac:(lia)) as E1.
    pose proof (Z.mod_pos_bound M P ltac:(lia)) as B1.
    pose proof (Zmod_odd (M / P)) as O.
    pose proof (Z.div_mod (M / P) 2 ltac:(lia)) as E2.
    assert (EM : M mod (2 * P) = P * ((M / P) mod 2) + M mod P).
    { rewrite (Z.mul_comm 2 P), Z.rem_mul_r by lia. lia. }
    rewrite EM.
    destruct (Z.odd (M / P)); rewrite O.
    + destruct (Z.eqb_spec (M mod P) 0);
        destruct (Z.eqb_spec (P * 1 + M mod P) 0); cbn; try reflexivity; lia.
    + replace (P * 0 + M mod P) with (M mod P) by lia. reflexivity.
Qed.

Lemma rne_bounds (M n : Z) : M / 2 ^ n <= rne M n <= M / 2 ^ n + 1.
Proof.
  unfold rne. destruct (_ <? _); [lia|].
  destruct (_ =? _); [destruct (Z.even _)|]; lia.
Qed.

Lemma rne_mono (M M' n : Z) :
  0 <= M <= M' -> 1 <= n -> rne M n <= rne M' n.
Proof.
  intros HM Hn.
  assert (P : 0 < 2 ^ n) by (apply Z.pow_pos_nonneg; lia).
  pose proof (Z.div_le_mono M M' (2 ^ n) P ltac:(lia)) as Q.
  destruct (Z.eq_dec (M / 2 ^ n) (M' / 2 ^ n)) as [E|NE].
  - pose proof (Z.div_mod M (2 ^ n) ltac:(lia)) as E1.
    pose proof (Z.div_mod M' (2 ^ n) ltac:(lia)) as E2.
    assert (R : M mod 2 ^ n <= M' mod 2 ^ n) by (rewrite E in E1; lia).
    unfold rne. rewrite <- E.
    destruct (Z.ltb_spec (M mod 2 ^ n) (2 ^ (n - 1)));
      destruct (Z.ltb_spec (M' mod 2 ^ n) (2 ^ (n - 1)));
      destruct (Z.eqb_spec (M mod 2 ^ n) (2 ^ (n - 1)));
      destruct (Z.eqb_spec (M' mod 2 ^ n) (2 ^ (n - 1)));
      destruct (Z.even (M / 2 ^ n)); lia.
  - pose proof (rne_bounds M n). pose proof (rne_bounds M' n). lia.
Qed.

Lemma shr_round (M : Z) (e : Z) (p : positive) :
  0 <= M ->
  let '(mrs, e') := shr (shr_record_of_loc M loc_Exact) e (Zpos p) in
  round_nearest_even (shr_m mrs) (loc_of_shr_record mrs) = rne M (Zpos p)
  /\ e' = e + Zpos p.
Proof.
  intros HM. cbn [shr shr_record_of_loc]. split; [|reflexivity].
  rewrite iter_pos_nat.
  destruct (Pos2Nat.is_succ p) as [k Hk]. rewrite Hk, shr_iter by exact HM.
  assert (En : Zpos p = Z.of_nat (S k)) by lia.
  rewrite <- En. replace (Z.of_nat k) with (Zpos p - 1) by lia.
  set (n := Zpos p) in *. set (h := 2 ^ (n - 1)).
  assert (Hh : 0 < h) by (apply Z.pow_pos_nonneg; lia).
  assert (E2 : 2 ^ n = h * 2).
  { subst h. replace n with (Z.succ (n - 1)) at 1 by lia.
    rewrite Z.pow_succ_r; lia. }
  unfold rne. fold h. cbn [shr_m loc_of_shr_record].
  assert (EM : M mod 2 ^ n = M mod h + h * ((M / h) mod 2))
    by (rewrite E2, Z.rem_mul_r by lia; reflexivity).
  pose proof (Z.mod_pos_bound M h Hh) as B.
  pose proof (Zmod_odd (M / h)) as O.
  rewrite EM. destruct (Z.odd (M / h)); rewrite O.
  - destruct (Z.eqb_spec (M mod h) 0) as [Z0|NZ]; cbn [negb loc_of_shr_record round_nearest_even].
    + destruct (Z.ltb_spec (M mod h + h * 1) h); [lia|].
      destruct (Z.eqb_spec (M mod h + h * 1) h); [reflexivity | lia].
    + destruct (Z.ltb_spec (M mod h + h * 1) h); [lia|].
      destruct (Z.eqb_spec (M mod h + h * 1) h); [lia | reflexivity].
  - destruct (Z.ltb_spec (M mod h + h * 0) h); [|lia].
    destruct (Z.eqb_spec (M mod h) 0); reflexivity.
Qed.

Lemma fexp_binary64 (x : Z) : (fexp prec emax) x = Z.max (x - 53) (-1074).
Proof. reflexivity. Qed.

Lemma digits_unique (p : positive) (k : Z) :
  2 ^ (k - 1) <= Zpos p < 2 ^ k -> Zpos (digits2_pos p) = k.
Proof.
  intros [L U]. pose proof (digits2_pos_bounds p) as [L' U'].
  assert (0 <= k).
  { destruct (Z.lt_ge_cases k 0) as [N|]; [|lia].
    rewrite (Z.pow_neg_r 2 k N) in U. lia. }
  destruct (Z.lt_trichotomy (Zpos (digits2_pos p)) k) as [C|[C|C]]; [|exact C|].
  - assert (2 ^ Zpos (digits2_pos p) <= 2 ^ (k - 1)) by (apply Z.pow_le_mono_r; lia). lia.
  - assert (2 ^ k <= 2 ^ (Zpos (digits2_pos p) - 1)) by (apply Z.pow_le_mono_r; lia). lia.
Qed.

Lemma digits_mono (p q : positive) :
  (p <= q)%positive -> Zpos (digits2_pos p) <= Zpos (digits2_pos q).
Proof.
  intros H. pose proof (digits2_pos_bounds p) as [L _].
  pose proof (digits2_pos_bounds q) as [_ U].
  destruct (Z.le_gt_cases (Zpos (digits2_pos p)) (Zpos (digits2_pos q))) as [|C]; [assumption|].
  assert (2 ^ Zpos (digits2_pos q) <= 2 ^ (Zpos (digits2_pos p) - 1)) by (apply Z.pow_le_mono_r; lia).
  lia.
Qed.

Lemma iter_xO_value (m k : positive) : Zpos (Pos.iter xO m k) = Zpos m * 2 ^ Zpos k.
Proof.
  induction k as [|k IH] using Pos.peano_ind.
  - cbn; lia.
  - rewrite Pos.iter_succ, Pos2Z.inj_succ, Z.pow_succ_r by lia.
    rewrite Pos2Z.inj_xO, IH. lia.
Qed.

Lemma digits_shift (m : positive) (k : Z) (mz : positive) :
  0 <= k -> Zpos mz = Zpos m * 2 ^ k ->
  Zpos (digits2_pos mz) = Zpos (digits2_pos m) + k.
Proof.
  intros Hk E. apply digits_unique. rewrite E.
  pose proof (digits2_pos_bounds m) as [L U].
  assert (P : 0 < 2 ^ k) by (apply Z.pow_pos_nonneg; lia).
  replace (Zpos (digits2_pos m) + k - 1) with ((Zpos (digits2_pos m) - 1) + k) by lia.
  rewrite !Z.pow_add_r by lia. split; nia.
Qed.

Lemma shl_align_value (m : positive) (e E : Z) :
  E <= e ->
  exists mz, shl_align m e E = (mz, E) /\ Zpos mz = Zpos m * 2 ^ (e - E).
Proof.
  intros H. unfold shl_align.
  destruct (E - e) as [|d|d] eqn:D; try lia.
  - exists m. assert (E = e) by lia. subst E.
    rewrite Z.sub_diag, Z.pow_0_r. split; [reflexivity|lia].
  - exists (Pos.iter xO m d). split; [reflexivity|].
    rewrite iter_xO_value. f_equal. f_equal. lia.
Qed.

(** A mantissa of at most 53 bits at an exponent within range is kept as
    it is, written at the canonical exponent. *)
Lemma binary_round_small (D : positive) (e0 : Z) :
  -1074 <= e0 -> Zpos (digits2_pos D) <= 53 ->
  let E := (fexp prec emax) (Zpos (digits2_pos D) + e0) in
  E <= e0 /\
  binary_round prec emax false D e0 = finite_or_inf (Zpos D * 2 ^ (e0 - E)) E.
Proof.
  intros He Hd E.
  assert (HE : E <= e0) by (subst E; rewrite fexp_binary64; lia).
  split; [exact HE|].
  unfold binary_round. fold E.
  destruct (shl_align_value D e0 E HE) as (mz & -> & Vz).
  pose proof (digits_shift D (e0 - E) mz ltac:(lia) Vz) as Dz.
  unfold binary_round_aux, shr_fexp. cbn [Zdigits2 shr_record_of_loc].
  rewrite Dz. replace (Zpos (digits2_pos D) + (e0 - E) + E) with (Zpos (digits2_pos D) + e0) by lia.
  fold E. rewrite Z.sub_diag. cbn [shr shr_m loc_of_shr_record round_nearest_even Zdigits2 shr_record_of_loc].
  rewrite Dz. replace (Zpos (digits2_pos D) + (e0 - E) + E) with (Zpos (digits2_pos D) + e0) by lia.
  fold E. rewrite Z.sub_diag. cbn [shr shr_m].
  rewrite <- Vz. reflexivity.
Qed.

(** A longer mantissa is shifted right to 53 bits and rounded to nearest
    even; a round-up to [2^53] moves to the next exponent. *)
Lemma binary_round_large (D : positive) (e0 n : Z) :
  -1074 <= e0 -> 1 <= n -> Zpos (digits2_pos D) = 53 + n ->
  2 ^ 52 <= rne (Zpos D) n <= 2 ^ 53 /\
  binary_round prec emax false D e0
  = if rne (Zpos D) n =? 2 ^ 53
    then finite_or_inf (2 ^ 52) (e0 + n + 1)
    else finite_or_inf (rne (Zpos D) n) (e0 + n).
Proof.
  intros He Hn Hd.
  assert (R : 2 ^ 52 <= rne (Zpos D) n <= 2 ^ 53).
  { pose proof (digits2_pos_bounds D) as [L U]. rewrite Hd in L, U.
    pose proof (rne_bounds (Zpos D) n) as B.
    assert (P : 0 < 2 ^ n) by (apply Z.pow_pos_nonneg; lia).
    replace (53 + n - 1) with (52 + n) in L by lia.
    rewrite Z.pow_add_r in L, U by lia.
    assert (2 ^ 52 <= Zpos D / 2 ^ n) by (apply Z.div_le_lower_bound; lia).
    assert (Zpos D / 2 ^ n < 2 ^ 53) by (apply Z.div_lt_upper_bound; lia).
    lia. }
  split; [exact R|].
  unfold binary_round.
  assert (F : (fexp prec emax) (Zpos (digits2_pos D) + e0) = e0 + n)
    by (rewrite fexp_binary64; lia).
  rewrite F. unfold shl_align.
  destruct (e0 + n - e0) as [|d|d] eqn:Ed; try lia.
  unfold binary_round_aux, shr_fexp at 1. cbn [Zdigits2].
  rewrite F. replace (e0 + n - e0) with (Zpos d) by lia.
  pose proof (shr_round (Zpos D) e0 d ltac:(lia)) as S1.
  destruct (shr (shr_record_of_loc (Zpos D) loc_Exact) e0 (Zpos d)) as [mrs1 e1].
  destruct S1 as [S1 ->]. rewrite S1.
  replace (Zpos d) with n in * by lia.
  set (m1 := rne (Zpos D) n) in *.
  destruct (Z.eqb_spec m1 (2 ^ 53)) as [E53|N53].
  - rewrite E53. unfold shr_fexp.
    change (Zdigits2 (2 ^ 53)) with 54. rewrite fexp_binary64.
    replace (Z.max (54 + (e0 + n) - 53) (-1074) - (e0 + n)) with 1 by lia.
    cbn [shr shr_record_of_loc iter_pos shr_1 shr_m]. 
    change (2 ^ 53) with 9007199254740992. cbn [shr_1 shr_m].
    reflexivity.
  - destruct m1 as [|p1|p1] eqn:Em; try (change (2 ^ 52) with 4503599627370496 in R; lia).
    assert (Zpos (digits2_pos p1) = 53).
    { apply digits_unique. change (53 - 1) with 52. lia. }
    unfold shr_fexp. cbn [Zdigits2]. rewrite H, fexp_binary64.
    replace (Z.max (53 + (e0 + n) - 53) (-1074) - (e0 + n)) with 0 by lia.
    cbn [shr shr_record_of_loc shr_m]. reflexivity.
Qed.

Lemma finite_or_inf_le (m e m' e' : Z) :
  0 < m -> 0 < m' -> e < e' \/ (e = e' /\ m <= m') ->
  SFleb (finite_or_inf m e) (finite_or_inf m' e') = true.
Proof.
  intros Hm Hm' H.
  destruct m as [|p|p]; try lia. destruct m' as [|p'|p']; try lia.
  unfold finite_or_inf.
  destruct (Z.leb_spec e (emax - prec)); destruct (Z.leb_spec e' (emax - prec));
    try reflexivity; [|lia].
  unfold SFleb; cbn [SFcompare].
  destruct (Z.compare_spec e e') as [E|L|G]; [|reflexivity|lia].
  change (Pos.compare_cont Eq p p') with (Pos.compare p p').
  destruct (Pos.compare_spec p p'); try reflexivity; lia.
Qed.

Lemma binary_round_mono (D D' : positive) (e0 : Z) :
  -1074 <= e0 -> (D <= D')%positive ->
  SFleb (binary_round prec emax false D e0) (binary_round prec emax false D' e0) = true.
Proof.
  intros He HD.
  pose proof (digits_mono D D' HD) as Hd.
  assert (P52 : 2 ^ 52 = 4503599627370496) by reflexivity.
  assert (P53 : 2 ^ 53 = 9007199254740992) by reflexivity.
  destruct (Z.le_gt_cases (Zpos (digits2_pos D')) 53) as [S'|L'].
  - (* both short *)
    destruct (binary_round_small D e0 He ltac:(lia)) as [HE ->].
    destruct (binary_round_small D' e0 He S') as [HE' ->].
    rewrite !fexp_binary64 in *.
    set (E := Z.max (Zpos (digits2_pos D) + e0 - 53) (-1074)) in *.
    set (E' := Z.max (Zpos (digits2_pos D') + e0 - 53) (-1074)) in *.
    assert (Q : 0 < 2 ^ (e0 - E)) by (apply Z.pow_pos_nonneg; lia).
    assert (Q' : 0 < 2 ^ (e0 - E')) by (apply Z.pow_pos_nonneg; lia).
    apply finite_or_inf_le; try nia.
    destruct (Z.eq_dec E E') as [EE|NE]; [right|left; lia].
    split; [exact EE|]. rewrite <- EE. nia.
  - destruct (Z.le_gt_cases (Zpos (digits2_pos D)) 53) as [S|L].
    + (* short against long *)
      destruct (binary_round_small D e0 He S) as [HE ->].
      destruct (binary_round_large D' e0 (Zpos (digits2_pos D') - 53) He ltac:(lia) ltac:(lia))
        as [R' ->].
      rewrite !fexp_binary64 in *.
      assert (Q : 0 < 2 ^ (e0 - Z.max (Zpos (digits2_pos D) + e0 - 53) (-1074)))
        by (apply Z.pow_pos_nonneg; lia).
      destruct (_ =? _); apply finite_or_inf_le; try nia; left; lia.
    + (* both long *)
      destruct (binary_round_large D e0 (Zpos (digits2_pos D) - 53) He ltac:(lia) ltac:(lia))
        as [R ->].
      destruct (binary_round_large D' e0 (Zpos (digits2_pos D') - 53) He ltac:(lia) ltac:(lia))
        as [R' ->].
      set (n := Zpos (digits2_pos D) - 53) in *.
      set (n' := Zpos (digits2_pos D') - 53) in *.
      destruct (Z.eq_dec n n') as [En|Nn].
      * rewrite <- En in *.
        pose proof (rne_mono (Zpos D) (Zpos D') n ltac:(lia) ltac:(lia)) as M.
        destruct (Z.eqb_spec (rne (Zpos D) n) (2 ^ 53));
          destruct (Z.eqb_spec (rne (Zpos D') n) (2 ^ 53));
          apply finite_or_inf_le; lia.
      * destruct (Z.eqb_spec (rne (Zpos D) n) (2 ^ 53));
          destruct (Z.eqb_spec (rne (Zpos D') n') (2 ^ 53));
          apply finite_or_inf_le; lia.
Qed.

Lemma binary_normalize_mono (D D' e0 : Z) :
  -1074 <= e0 -> 0 <= D <= D' ->
  SFleb (binary_normalize prec emax D e0 false) (binary_normalize prec emax D' e0 false) = true.
Proof.
  intros He HD.
  destruct D as [|p|p]; try lia.
  - cbn [binary_normalize]. rewrite SFleb_zero_nonneg.
    apply binary_normalize_nonneg; lia.
  - destruct D' as [|p'|p']; try lia. cbn [binary_normalize].
    apply binary_round_mono; [exact He | lia].
Qed.

Lemma SFleb_finite (m : positive) (e : Z) (m' : positive) (e' : Z) :
  SFleb (S754_finite false m e) (S754_finite false m' e') = true
  <-> e < e' \/ (e = e' /\ (m <= m')%positive).
Proof.
  unfold SFleb; cbn [SFcompare].
  change (Pos.compare_cont Eq m m') with (Pos.compare m m').
  destruct (Z.compare_spec e e') as [Ce|Ce|Ce];
    destruct (Pos.compare_spec m m') as [Cm|Cm|Cm];
    split; intros H; try reflexivity; try discriminate; lia.
Qed.

Lemma SFleb_trans_nonneg (x y z : spec_float) :
  SFnonneg x = true -> SFnonneg y = true -> SFnonneg z = true ->
  SFleb x y = true -> SFleb y z = true -> SFleb x z = true.
Proof.
  destruct x as [sx|sx| |sx mx ex]; destruct y as [sy|sy| |sy my ey];
    destruct z as [sz|sz| |sz mz ez]; cbn [SFnonneg];
    try discriminate;
    repeat match goal with s : bool |- _ => destruct s end;
    cbn [negb]; try discriminate; try reflexivity;
    intros _ _ _; try (intros; discriminate); try (intros; reflexivity).
  rewrite !SFleb_finite. lia.
Qed.

Lemma SFleb_infinity (x : spec_float) :
  SFnonneg x = true -> SFleb x (S754_infinity false) = true.
Proof. destruct x as [s|s| |s m e]; try destruct s; cbn; congruence. Qed.

(** The order of two canonical positive numbers is the order of their
    mantissas written at a common exponent. *)
Lemma aligned_le (m : positive) (e : Z) (m' : positive) (e' b : Z) :
  valid_binary (S754_finite false m e) = true ->
  valid_binary (S754_finite false m' e') = true ->
  b <= e ->
  SFleb (S754_finite false m e) (S754_finite false m' e') = true ->
  Zpos m * 2 ^ (e - b) <= Zpos m' * 2 ^ (e' - b).
Proof.
  intros V V' Hb H. apply SFleb_finite in H.
  destruct (valid_finite_digits _ _ _ _ _ V) as (Ee & Dm & _).
  destruct (valid_finite_digits _ _ _ _ _ V') as (_ & _ & Dm').
  change (SpecFloat.emin prec emax) with (-1074) in *.
  change prec with 53 in *.
  assert (Q : 0 < 2 ^ (e - b)) by (apply Z.pow_pos_nonneg; lia).
  destruct H as [L|[E L]].
  - pose proof (digits2_pos_bounds m) as [_ U].
    pose proof (digits2_pos_bounds m') as [L' _].
    rewrite Dm' in L' by lia. change (53 - 1) with 52 in L'.
    assert (2 ^ Zpos (digits2_pos m) <= 2 ^ 53) by (apply Z.pow_le_mono_r; lia).
    replace (e' - b) with ((e' - e - 1) + 1 + (e - b)) by lia.
    rewrite !Z.pow_add_r by lia.
    assert (0 < 2 ^ (e' - e - 1)) by (apply Z.pow_pos_nonneg; lia).
    change (2 ^ 1) with 2.
    change (2 ^ 53) with 9007199254740992 in *.
    change (2 ^ 52) with 4503599627370496 in *.
    set (K := 2 ^ (e' - e - 1)) in *. set (Qv := 2 ^ (e - b)) in *.
    assert (Zpos m <= Zpos m' * (K * 2)) by nia.
    replace (Zpos m' * (K * 2 * Qv)) with (Zpos m' * (K * 2) * Qv) by ring.
    apply Z.mul_le_mono_nonneg_r; lia.
  - subst e'. apply Z.mul_le_mono_nonneg_r; lia.
Qed.

(** Subtracting the same finite positive [c] keeps the order, for
    canonical operands that are at least [c]. *)
Lemma SFsub_mono (x x' : spec_float) (mc : positive) (ec : Z) :
  let c := S754_finite false mc ec in
  valid_binary x = true -> valid_binary x' = true -> valid_binary c = true ->
  SFleb c x = true -> SFleb x x' = true ->
  SFleb (SFsub prec emax x c) (SFsub prec emax x' c) = true.
Proof.
  intros c Vx Vx' Vc Hc Hx. subst c.
  assert (Nx' : SFleb (S754_finite false mc ec) x' = true).
  { destruct x as [s|s| |s m e], x' as [s'|s'| |s' m' e'];
      repeat match goal with s : bool |- _ => destruct s end; try discriminate;
      try reflexivity.
    revert Hc Hx. rewrite !SFleb_finite. lia. }
  pose proof (SFsub_nonneg prec emax x _ Vx Vc eq_refl eq_refl Hc) as Px.
  pose proof (SFsub_nonneg prec emax x' _ Vx' Vc eq_refl eq_refl Nx') as Px'.
  destruct x' as [s'|s'| |s' m' e']; try destruct s'; try discriminate.
  - (* x' = +inf *)
    change (SFsub prec emax (S754_infinity false) (S754_finite false mc ec))
      with (S754_infinity false).
    now apply SFleb_infinity.
  - destruct x as [s|s| |s m e]; try destruct s; try discriminate.
    destruct (valid_finite_digits _ _ _ _ _ Vc) as (Ec & _ & _).
    change (SpecFloat.emin prec emax) with (-1074) in Ec.
    assert (He : ec <= e) by (apply SFleb_finite in Hc; lia).
    assert (He' : ec <= e') by (apply SFleb_finite in Nx'; lia).
    pose proof (aligned_le mc ec m e ec Vc Vx (Z.le_refl _) Hc) as A1.
    pose proof (aligned_le m e m' e' ec Vx Vx' He Hx) as A2.
    rewrite Z.sub_diag, Z.pow_0_r in A1.
    cbn [SFsub cond_Zopp]. rewrite !Z.min_r by lia.
    rewrite shl_align_same.
    destruct (shl_align_value m e ec He) as (mz & -> & Vz).
    destruct (shl_align_value m' e' ec He') as (mz' & -> & Vz').
    cbn [fst]. apply binary_normalize_mono; lia.
Qed.


Local Close Scope Z_scope.

(** *** The same facts on [float] *)

Lemma leb_zero (x : float) : (0 <=? x) = SFnonneg (Prim2SF x).
Proof.
  rewrite leb_spec. change (Prim2SF 0) with (S754_zero false).
  apply SFleb_zero_nonneg.
Qed.

Lemma add_nonneg (x y : float) :
  (0 <=? x) = true -> (0 <=? y) = true -> (0 <=? x + y) = true.
Proof.
  rewrite !leb_zero, add_spec; apply SFadd_nonneg.
Qed.

Lemma sub_nonneg (x y : float) :
  SFfinite (Prim2SF y) = true ->
  (0 <=? y) = true -> (y <=? x) = true -> (0 <=? x - y) = true.
Proof.
  rewrite !leb_zero, leb_spec, sub_spec; intros Fy Ny Hle.
  apply SFsub_nonneg; auto using Prim2SF_valid.
Qed.

Lemma div_nonneg (x y : float) (my : positive) (ey : Z) :
  Prim2SF y = S754_finite false my ey ->
  (0 <=? x) = true -> (0 <=? x / y) = true.
Proof.
  rewrite !leb_zero, div_spec; intros ->; apply SFdiv_nonneg.
Qed.

Lemma of_uint63_nonneg (n : PrimInt63.int) : (0 <=? of_uint63 n) = true.
Proof.
  rewrite leb_zero, of_uint63_spec.
  apply binary_normalize_nonneg, Uint63.to_Z_bounded.
Qed.

Lemma nonneg_not_nan (x : float) :
  (0 <=? x) = true -> SFis_nan (Prim2SF x) = false.
Proof. rewrite leb_zero; apply SFnonneg_not_nan. Qed.

Lemma leb_false_ltb (x y : float) :
  SFis_nan (Prim2SF x) = false -> SFis_nan (Prim2SF y) = false ->
  (y <=? x) = false -> (x <? y) = true.
Proof. rewrite leb_spec, ltb_spec; apply SFleb_false_ltb. Qed.

Lemma ltb_false_leb (x y : float) :
  SFis_nan (Prim2SF x) = false -> SFis_nan (Prim2SF y) = false ->
  (y <? x) = false -> (x <=? y) = true.
Proof. rewrite leb_spec, ltb_spec; apply SFltb_false_leb. Qed.

Lemma sub_mono (x x' c : float) (mc : positive) (ec : Z) :
  Prim2SF c = S754_finite false mc ec ->
  (c <=? x) = true -> (x <=? x') = true -> (x - c <=? x' - c) = true.
Proof.
  intros Ec. rewrite !leb_spec, !sub_spec, Ec. intros Hc Hx.
  apply SFsub_mono; auto using Prim2SF_valid.
  rewrite <- Ec. apply Prim2SF_valid.
Qed.

Lemma leb_trans_nonneg (x y z : float) :
  (0 <=? x) = true -> (x <=? y) = true -> (y <=? z) = true -> (x <=? z) = true.
Proof.
  rewrite leb_zero, !leb_spec. intros Nx Hxy Hyz.
  assert (Ny : SFnonneg (Prim2SF y) = true).
  { rewrite <- SFleb_zero_nonneg in *.
    destruct (Prim2SF x) as [s|s| |s m e], (Prim2SF y) as [s'|s'| |s' m' e'];
      repeat match goal with s : bool |- _ => destruct s end;
      try discriminate; reflexivity. }
  assert (Nz : SFnonneg (Prim2SF z) = true).
  { rewrite <- SFleb_zero_nonneg in *.
    destruct (Prim2SF y) as [s|s| |s m e], (Prim2SF z) as [s'|s'| |s' m' e'];
      repeat match goal with s : bool |- _ => destruct s end;
      try discriminate; reflexivity. }
  now apply (SFleb_trans_nonneg _ (Prim2SF y)).
Qed.

Lemma ltb_next (x y : float) (m : positive) (e : Z) :
  Prim2SF x = S754_finite false m e ->
  Prim2SF y = S754_finite false (Pos.succ m) e ->
  (x <? y) = true ->
  forall a, (x <? a) = true -> (y <=? a) = true.
Proof.
  intros Ex Ey _ a. rewrite ltb_spec, leb_spec, Ex, Ey.
  destruct (Prim2SF a) as [s|s| |s ma ea]; try destruct s; try discriminate;
    try reflexivity.
  rewrite SFleb_finite. unfold SFltb; cbn [SFcompare].
  change (Pos.compare_cont Eq m ma) with (Pos.compare m ma).
  destruct (Z.compare_spec e ea) as [C|C|C]; try discriminate; [|lia].
  destruct (Pos.compare_spec m ma) as [Cm|Cm|Cm]; try discriminate. lia.
Qed.

End Double.


(** * The scheduler: structure of a frame *)

Section FrameStructure.

Variables (dtSeconds : float) (burst : list Command) (w : World).

Let w1 := setAccumulator (timeAccumulator w + dtSeconds) w.
Let ws := stepLoop MAX_SIMULATION_STEPS_PER_FRAME w1.

Lemma frame_ticks : ticks (snd (frame dtSeconds burst w)) = ws.
Proof.
  unfold frame; fold w1; fold ws.
  destruct (enqueueAll burst _); reflexivity.
Qed.

Lemma frame_accepted :
  accepted (snd (frame dtSeconds burst w))
  = fst (enqueueAll burst (commandQueue (last ws w1))).
Proof.
  unfold frame; fold w1; fold ws.
  destruct (length ws =? _)%nat; cbn [setAccumulator commandQueue];
    destruct (enqueueAll burst _); reflexivity.
Qed.

Lemma frame_currentState :
  currentState (fst (frame dtSeconds burst w)) = currentState (last ws w1).
Proof.
  unfold frame; fold w1; fold ws.
  destruct (enqueueAll burst _); destruct (length ws =? _)%nat; reflexivity.
Qed.

Lemma frame_previousState :
  previousState (fst (frame dtSeconds burst w)) = previousState (last ws w1).
Proof.
  unfold frame; fold w1; fold ws.
  destruct (enqueueAll burst _); destruct (length ws =? _)%nat; reflexivity.
Qed.

Lemma frame_timeAccumulator :
  timeAccumulator (fst (frame dtSeconds burst w))
  = if (length ws =? MAX_SIMULATION_STEPS_PER_FRAME)%nat
    then 0 else timeAccumulator (last ws w1).
Proof.
  unfold frame; fold w1; fold ws.
  destruct (enqueueAll burst _); destruct (length ws =? _)%nat; reflexivity.
Qed.

Lemma frame_commandQueue :
  commandQueue (fst (frame dtSeconds burst w))
  = snd (enqueueAll burst (commandQueue (last ws w1))).
Proof.
  unfold frame; fold w1; fold ws.
  destruct (length ws =? _)%nat; cbn [setAccumulator commandQueue];
    destruct (enqueueAll burst _); reflexivity.
Qed.

Lemma frame_visualState :
  visualState (snd (frame dtSeconds burst w))
  = interpolateState (previousState (last ws w1)) (currentState (last ws w1))
      (timeAccumulator (fst (frame dtSeconds burst w)) / FIXED_DT_SECONDS).
Proof.
  unfold frame; fold w1; fold ws.
  destruct (enqueueAll burst _); destruct (length ws =? _)%nat; reflexivity.
Qed.

End FrameStructure.

Lemma tick_timeAccumulator (w : World) :
  timeAccumulator (tick w) = timeAccumulator w - FIXED_DT_SECONDS.
Proof. unfold tick; destruct (drainCommands _ _ _); reflexivity. Qed.

Lemma tick_previousState (w : World) : previousState (tick w) = currentState w.
Proof. unfold tick; destruct (drainCommands _ _ _); reflexivity. Qed.

Lemma tick_currentState (w : World) :
  currentState (tick w)
  = updateSystem
      (fst (drainCommands MAX_COMMANDS_PER_STEP (currentState w) (commandQueue w)))
      FIXED_DT_SECONDS.
Proof. unfold tick; destruct (drainCommands _ _ _); reflexivity. Qed.

Lemma tick_commandQueue (w : World) :
  commandQueue (tick w)
  = snd (drainCommands MAX_COMMANDS_PER_STEP (currentState w) (commandQueue w)).
Proof. unfold tick; destruct (drainCommands _ _ _); reflexivity. Qed.

Lemma last_Forall {A : Type} (P : A -> Prop) (l : list A) (d : A) :
  Forall P l -> P d -> P (last l d).
Proof.
  induction 1 as [|x l Hx Hl IH]; intros Hd; [exact Hd|].
  destruct l as [|y l]; [exact Hx|]. apply IH; exact Hd.
Qed.

(** The loop runs as many ticks as the time condition allows, up to its
    cap. *)
Lemma stepLoop_length (n : nat) (w : World) :
  length (stepLoop n w) = ticksOwed n (timeAccumulator w).
Proof.
  revert w; induction n as [|n IH]; intros w; cbn [stepLoop ticksOwed]; auto.
  destruct (FIXED_DT_SECONDS <=? timeAccumulator w); cbn [length]; auto.
  now rewrite IH, tick_timeAccumulator.
Qed.

Lemma ticksOwed_le (n : nat) (acc : float) : ticksOwed n acc <= n.
Proof.
  revert acc; induction n as [|n IH]; intros acc; cbn [ticksOwed]; auto.
  destruct (FIXED_DT_SECONDS <=? acc); [apply le_n_S, IH | lia].
Qed.

Lemma ticksOwed_cap (n bound : nat) (acc : float) :
  n <= ticksOwed bound acc -> ticksOwed n acc = n.
Proof.
  revert bound acc; induction n as [|n IH]; intros bound acc H; auto.
  destruct bound as [|bound]; cbn [ticksOwed] in *; [lia|].
  destruct (FIXED_DT_SECONDS <=? acc); [|lia].
  f_equal; apply (IH bound); lia.
Qed.

(** More accumulated time never means fewer ticks. *)
Lemma ticksOwed_mono (n : nat) (a a' : float) :
  (a <=? a') = true -> (ticksOwed n a <= ticksOwed n a')%nat.
Proof.
  revert a a'; induction n as [|n IH]; intros a a' H; cbn [ticksOwed]; [lia|].
  destruct (FIXED_DT_SECONDS <=? a) eqn:G; [|lia].
  assert (G' : (FIXED_DT_SECONDS <=? a') = true)
    by (apply (Double.leb_trans_nonneg _ a); auto).
  rewrite G'. apply le_n_S, IH.
  apply (Double.sub_mono _ _ _ 5764607523034235 (-59)); auto.
Qed.

Lemma ticksOwed_above_cap (a : float) :
  (5 * FIXED_DT_SECONDS <? a) = true -> ticksOwed 5 a = 5%nat.
Proof.
  intros H.
  assert (L : (0x1.999999999999bp-5 <=? a) = true).
  { apply (Double.ltb_next (5 * FIXED_DT_SECONDS) _ 7205759403792794 (-57));
      auto; reflexivity. }
  pose proof (ticksOwed_mono 5 _ _ L) as M.
  pose proof (ticksOwed_le 5 a).
  change (ticksOwed 5 0x1.999999999999bp-5) with 5%nat in M. lia.
Qed.

(** * C1: the step cap *)

(** Whenever the time condition holds five times in a row, the frame runs
    exactly five ticks and ends with an empty accumulator. *)
Lemma frame_cap (dtSeconds : float) (burst : list Command) (w : World)
  (bound : nat) :
  MAX_SIMULATION_STEPS_PER_FRAME
    <= ticksOwed bound (timeAccumulator w + dtSeconds) ->
  length (ticks (snd (frame dtSeconds burst w)))
    = MAX_SIMULATION_STEPS_PER_FRAME
  /\ timeAccumulator (fst (frame dtSeconds burst w)) = 0.
Proof.
  intros Howed.
  assert (L : length (stepLoop MAX_SIMULATION_STEPS_PER_FRAME
                        (setAccumulator (timeAccumulator w + dtSeconds) w))
              = MAX_SIMULATION_STEPS_PER_FRAME).
  { rewrite stepLoop_length; cbn [setAccumulator timeAccumulator].
    now apply (ticksOwed_cap _ bound). }
  rewrite frame_ticks, frame_timeAccumulator, L.
  split; reflexivity.
Qed.

(** C1.  In a frame whose accumulated time, after the addition of the
    frame's delta, is more than five fixed ticks
    ([5 * FIXED_DT_SECONDS < timeAccumulator]), the loop runs exactly
    [MAX_SIMULATION_STEPS_PER_FRAME = 5] ticks and the frame leaves
    [timeAccumulator] at zero: the next frame starts from 0, not from the
    unconsumed rest. *)
Theorem step_cap_discards_time
  (dtSeconds : float) (burst : list Command) (w : World) :
  (5 * FIXED_DT_SECONDS <? timeAccumulator w + dtSeconds) = true ->
  length (ticks (snd (frame dtSeconds burst w)))
    = MAX_SIMULATION_STEPS_PER_FRAME
  /\ timeAccumulator (fst (frame dtSeconds burst w)) = 0.
Proof.
  intros Hmore. apply (frame_cap _ _ _ 5).
  rewrite (ticksOwed_above_cap _ Hmore). apply le_n.
Qed.

(** A frame of [main] that starts with 9 ms in the accumulator and meets
    a stall: 0.059 s are owed, five ticks run, and the 9 ms left over are
    dropped. *)
Lemma step_cap_discards_time_witness :
  (5 * FIXED_DT_SECONDS
     <? timeAccumulator (mkWorld initialState initialState 0.009 []) + 0.05)
  = true
  /\ length (ticks (snd (frame 0.05 inputBurst
                          (mkWorld initialState initialState 0.009 []))))
     = MAX_SIMULATION_STEPS_PER_FRAME
  /\ timeAccumulator (fst (frame 0.05 inputBurst
                            (mkWorld initialState initialState 0.009 []))) = 0.
Proof.
  split; [reflexivity|].
  apply (step_cap_discards_time 0.05 inputBurst
           (mkWorld initialState initialState 0.009 [])).
  reflexivity.
Defined.

(** The strict bound is sharp in binary64.  With exactly
    [5 * FIXED_DT_SECONDS] in the accumulator (a stall clamped to
    [MAX_DT_SECONDS] on an empty accumulator), four rounded subtractions of
    0.01 leave 0.0099999999999999967: the loop stops after four ticks and
    carries that rest over.  No accumulated time up to
    [5 * FIXED_DT_SECONDS] runs more than four ticks. *)
Lemma five_ticks_of_time_run_four (a : float) :
  (a <=? 5 * FIXED_DT_SECONDS) = true ->
  ticksOwed MAX_SIMULATION_STEPS_PER_FRAME a <= 4
  /\ ticksOwed MAX_SIMULATION_STEPS_PER_FRAME (0 + MAX_DT_SECONDS) = 4%nat
  /\ timeAccumulator (fst (frame MAX_DT_SECONDS inputBurst
                            (initWorld initialState initialState)))
     = 0.0099999999999999967.
Proof.
  intros H. split; [|split; reflexivity].
  apply (ticksOwed_mono MAX_SIMULATION_STEPS_PER_FRAME) in H. exact H.
Qed.

(** * C4: an invalid state is terminal *)

Lemma updateSystem_invalid (s : SystemState) (dt : float) :
  valid s = false -> updateSystem s dt = s.
Proof. intros H; unfold updateSystem; now rewrite H. Qed.

Lemma applyCommand_invalid (s : SystemState) (cmd : Command) :
  valid s = false -> applyCommand s cmd = s.
Proof. intros H; unfold applyCommand; now rewrite H. Qed.

Lemma drainCommands_invalid (budget : nat) (s : SystemState) (q : CommandQueue) :
  valid s = false -> fst (drainCommands budget s q) = s.
Proof.
  intros H; revert q; induction budget as [|b IH]; intros [|c q];
    cbn [drainCommands fst]; auto.
  rewrite applyCommand_invalid by exact H. apply IH.
Qed.

Lemma tick_invalid (w : World) :
  valid (currentState w) = false -> currentState (tick w) = currentState w.
Proof.
  intros H. rewrite tick_currentState, drainCommands_invalid by exact H.
  now apply updateSystem_invalid.
Qed.

Lemma stepLoop_invalid (n : nat) (w : World) :
  valid (currentState w) = false ->
  Forall (fun w' => currentState w' = currentState w) (stepLoop n w).
Proof.
  revert w; induction n as [|n IH]; intros w H; cbn [stepLoop]; auto.
  destruct (FIXED_DT_SECONDS <=? timeAccumulator w); auto.
  pose proof (tick_invalid w H) as E.
  constructor; [exact E|].
  rewrite <- E. apply IH. now rewrite E.
Qed.

Lemma frame_invalid (dt : float) (burst : list Command) (w : World) :
  valid (currentState w) = false ->
  Forall (fun w' => currentState w' = currentState w)
         (ticks (snd (frame dt burst w)))
  /\ currentState (fst (frame dt burst w)) = currentState w.
Proof.
  intros H. rewrite frame_ticks, frame_currentState.
  pose proof (stepLoop_invalid MAX_SIMULATION_STEPS_PER_FRAME
                (setAccumulator (timeAccumulator w + dt) w) H) as F.
  split; [exact F|].
  now apply (last_Forall (fun w' => currentState w' = currentState w)).
Qed.

Lemma runFrames_invalid (inputs : list (float * list Command)) (w : World) :
  valid (currentState w) = false ->
  Forall (eq (currentState w)) (stateTrace (snd (runFrames inputs w)))
  /\ currentState (fst (runFrames inputs w)) = currentState w.
Proof.
  revert w; induction inputs as [|[dt burst] rest IH]; intros w H.
  - split; [constructor | reflexivity].
  - cbn [runFrames].
    destruct (frame_invalid dt burst w H) as [Ft Fc].
    destruct (frame dt burst w) as [w1 out]; cbn [fst snd] in Ft, Fc.
    assert (H1 : valid (currentState w1) = false) by now rewrite Fc.
    destruct (IH w1 H1) as [It Ic]. rewrite Fc in It, Ic.
    destruct (runFrames rest w1) as [w2 outs]; cbn [fst snd] in *.
    split; [|exact Ic].
    unfold stateTrace in *; cbn [map concat].
    rewrite map_app. apply Forall_app; split; [|exact It].
    apply Forall_map. eapply Forall_impl; [|exact Ft].
    intros a Ha; now symmetry.
Qed.

(** C4.  For a state with [valid = false], the integrator (for every
    [dt]) and the command applier (for every command) return the state
    unchanged in all three fields; hence over any sequence of frames, with
    any deltas and any commands, the state after every tick and at the end
    is still that state. *)
Theorem terminal_invalidity (s : SystemState) :
  valid s = false ->
  (forall dt : float, updateSystem s dt = s)
  /\ (forall cmd : Command, applyCommand s cmd = s)
  /\ (forall (inputs : list (float * list Command)) (w : World),
        currentState w = s ->
        Forall (eq s) (stateTrace (snd (runFrames inputs w)))
        /\ currentState (fst (runFrames inputs w)) = s).
Proof.
  intros H; repeat split.
  - intros dt; now apply updateSystem_invalid.
  - intros cmd; now apply applyCommand_invalid.
  - subst s; now apply runFrames_invalid.
  - subst s; now apply runFrames_invalid.
Qed.

Lemma terminal_invalidity_witness :
  valid (mkState 0 0 false) = false
  /\ (forall dt : float, updateSystem (mkState 0 0 false) dt = mkState 0 0 false)
  /\ (forall cmd : Command,
        applyCommand (mkState 0 0 false) cmd = mkState 0 0 false)
  /\ (forall (inputs : list (float * list Command)) (w : World),
        currentState w = mkState 0 0 false ->
        Forall (eq (mkState 0 0 false)) (stateTrace (snd (runFrames inputs w)))
        /\ currentState (fst (runFrames inputs w)) = mkState 0 0 false).
Proof.
  split; [reflexivity|].
  apply (terminal_invalidity (mkState 0 0 false)); reflexivity.
Defined.

(** * C5: the boundary rule of the integrator *)

(** C5.  For a valid state and any [dt], when the integrated position
    [position + velocity * dt] is below zero, [updateSystem] returns exactly
    [{position: 0, velocity: 0, valid: false}]. *)
Theorem integrator_boundary_rule (s : SystemState) (dt : float) :
  valid s = true ->
  (position s + velocity s * dt <? 0) = true ->
  updateSystem s dt = mkState 0 0 false.
Proof.
  intros Hv Hneg; unfold updateSystem; rewrite Hv; cbn [negb].
  now rewrite Hneg.
Qed.

(** Scenario D: from [{0.02, -5, true}] one tick of 0.01 s. *)
Lemma integrator_boundary_rule_witness :
  valid (mkState 0.02 (-5) true) = true
  /\ (position (mkState 0.02 (-5) true)
      + velocity (mkState 0.02 (-5) true) * 0.01 <? 0) = true
  /\ updateSystem (mkState 0.02 (-5) true) 0.01 = mkState 0 0 false.
Proof.
  split; [reflexivity|]. split; [reflexivity|].
  apply (integrator_boundary_rule (mkState 0.02 (-5) true) 0.01); reflexivity.
Defined.

(** * C6: bounded intake *)

Lemma enqueueCommand_length (cmd : Command) (q : CommandQueue) :
  length q <= MAX_COMMAND_QUEUE_SIZE ->
  length (snd (enqueueCommand cmd q)) <= MAX_COMMAND_QUEUE_SIZE.
Proof.
  intros H; unfold enqueueCommand.
  destruct (Nat.leb_spec MAX_COMMAND_QUEUE_SIZE (length q)); cbn [snd]; auto.
  rewrite length_app; cbn [length]; lia.
Qed.

Lemma enqueueAll_length (cmds : list Command) (q : CommandQueue) :
  length q <= MAX_COMMAND_QUEUE_SIZE ->
  length (snd (enqueueAll cmds q)) <= MAX_COMMAND_QUEUE_SIZE.
Proof.
  revert q; induction cmds as [|c cmds IH]; intros q H; cbn [enqueueAll snd]; auto.
  pose proof (enqueueCommand_length c q H) as H1.
  destruct (enqueueCommand c q) as [ok q1]; cbn [snd] in H1.
  specialize (IH q1 H1).
  destruct (enqueueAll cmds q1) as [oks q2]; exact IH.
Qed.

(** C6.  [enqueueCommand] on a queue of fewer than 32 commands appends the
    command at the tail and answers [true]; on a queue of 32 or more it
    answers [false] and returns the very same queue; so any sequence of
    intake calls, from the empty queue or from any queue within the bound,
    leaves at most 32 commands queued. *)
Theorem bounded_intake (cmd : Command) (q : CommandQueue) :
  (length q < 32 -> enqueueCommand cmd q = (true, q ++ [cmd]))
  /\ (32 <= length q -> enqueueCommand cmd q = (false, q))
  /\ (forall cmds : list Command,
        length q <= 32 -> length (snd (enqueueAll cmds q)) <= 32)
  /\ (forall cmds : list Command, length (snd (enqueueAll cmds [])) <= 32).
Proof.
  repeat split.
  - intros H; unfold enqueueCommand.
    destruct (Nat.leb_spec MAX_COMMAND_QUEUE_SIZE (length q)) as [L|L];
      [unfold MAX_COMMAND_QUEUE_SIZE in L; lia | reflexivity].
  - intros H; unfold enqueueCommand.
    destruct (Nat.leb_spec MAX_COMMAND_QUEUE_SIZE (length q)) as [L|L];
      [reflexivity | unfold MAX_COMMAND_QUEUE_SIZE in L; lia].
  - intros cmds H; now apply enqueueAll_length.
  - intros cmds; apply enqueueAll_length; cbn; unfold MAX_COMMAND_QUEUE_SIZE; lia.
Qed.

(** * C8: [Stop] after [Accelerate] within one tick *)

Lemma applyCommand_valid (s : SystemState) (cmd : Command) :
  valid s = true ->
  applyCommand s cmd
  = match type cmd with
    | Accelerate => mkState (position s) (velocity s + value cmd) true
    | Stop => mkState (position s) 0 true
    end.
Proof.
  intros H; unfold applyCommand; rewrite H; cbn [negb].
  destruct (type cmd); reflexivity.
Qed.

Lemma updateSystem_velocity_zero (s : SystemState) (dt : float) :
  velocity s = 0 -> velocity (updateSystem s dt) = 0.
Proof.
  intros H; unfold updateSystem.
  destruct (negb (valid s)); [exact H|].
  destruct (_ <? 0); [reflexivity | exact H].
Qed.

(** C8.  With [Accelerate v; Stop] queued, the drain of one tick leaves
    velocity 0 whatever the velocity before and whatever [v], and so does
    the whole tick, which also empties the queue.  This holds for every
    settled state: a valid one with a position not below 0, where [Stop]
    is applied last and overwrites the velocity, and an invalid one, which
    [applyCommand] leaves alone and which rests at velocity 0 since the
    integrator invalidated it.  The state [main] starts with is settled
    and every tick keeps states settled, so these are the states a drain
    can receive. *)
Theorem stop_overrides (s : SystemState) (v x : float) (w : World) :
  settled s ->
  velocity (fst (drainCommands MAX_COMMANDS_PER_STEP s
                   [mkCommand Accelerate v; mkCommand Stop x])) = 0
  /\ (currentState w = s ->
      commandQueue w = [mkCommand Accelerate v; mkCommand Stop x] ->
      velocity (currentState (tick w)) = 0 /\ commandQueue (tick w) = []).
Proof.
  intros Hs.
  assert (D : velocity (fst (drainCommands MAX_COMMANDS_PER_STEP s
                               [mkCommand Accelerate v; mkCommand Stop x]))
              = 0).
  { unfold settled in Hs. destruct (valid s) eqn:V.
    - cbn [drainCommands MAX_COMMANDS_PER_STEP fst].
      rewrite (applyCommand_valid s) by exact V; cbn [type value].
      rewrite applyCommand_valid by reflexivity; reflexivity.
    - rewrite drainCommands_invalid by exact V. apply Hs. }
  split; [exact D|].
  intros Ew Eq. rewrite tick_currentState, tick_commandQueue, Ew, Eq.
  split; [apply updateSystem_velocity_zero; exact D | reflexivity].
Qed.

(** From velocity 3, valid, and from the state the integrator leaves
    behind when it invalidates. *)
Lemma stop_overrides_witness :
  settled (mkState 0.5 3 true)
  /\ settled (mkState 0 0 false)
  /\ velocity (fst (drainCommands MAX_COMMANDS_PER_STEP (mkState 0.5 3 true)
                      [mkCommand Accelerate 1; mkCommand Stop 0])) = 0
  /\ velocity (fst (drainCommands MAX_COMMANDS_PER_STEP (mkState 0 0 false)
                      [mkCommand Accelerate 1; mkCommand Stop 0])) = 0.
Proof.
  assert (H1 : settled (mkState 0.5 3 true)) by reflexivity.
  assert (H2 : settled (mkState 0 0 false)) by (split; reflexivity).
  split; [exact H1|]. split; [exact H2|]. split.
  - exact (proj1 (stop_overrides (mkState 0.5 3 true) 1 0
                    (initWorld initialState initialState) H1)).
  - exact (proj1 (stop_overrides (mkState 0 0 false) 1 0
                    (initWorld initialState initialState) H2)).
Defined.

(** * C2: determinism *)

Lemma tick_same (a b : World) :
  sameSimulation a b -> sameSimulation (tick a) (tick b).
Proof.
  intros (Hs & Ha & Hq); unfold sameSimulation.
  rewrite !tick_currentState, !tick_timeAccumulator, !tick_commandQueue.
  rewrite Hs, Ha, Hq; auto.
Qed.

Lemma stepLoop_same (n : nat) (a b : World) :
  sameSimulation a b -> Forall2 sameSimulation (stepLoop n a) (stepLoop n b).
Proof.
  revert a b; induction n as [|n IH]; intros a b H; cbn [stepLoop]; auto.
  destruct H as (Hs & Ha & Hq). rewrite Ha.
  destruct (FIXED_DT_SECONDS <=? timeAccumulator b); auto.
  assert (Ht : sameSimulation (tick a) (tick b))
    by (apply tick_same; repeat split; assumption).
  constructor; auto.
Qed.

Lemma Forall2_last {A : Type} (R : A -> A -> Prop) (l l' : list A) (d d' : A) :
  Forall2 R l l' -> R d d' -> R (last l d) (last l' d').
Proof.
  induction 1 as [|x y l l' Hxy Hl IH]; intros Hd; [exact Hd|].
  destruct Hl as [|x' y' l l' Hxy' Hl]; [exact Hxy|].
  apply IH; exact Hd.
Qed.

Lemma Forall2_same_states (l l' : list World) :
  Forall2 sameSimulation l l' -> map currentState l = map currentState l'.
Proof.
  induction 1 as [|x y l l' (Hs & _) Hl IH]; cbn [map]; congruence.
Qed.

Lemma frame_same (dt : float) (burst : list Command) (a b : World) :
  sameSimulation a b ->
  sameSimulation (fst (frame dt burst a)) (fst (frame dt burst b))
  /\ map currentState (ticks (snd (frame dt burst a)))
     = map currentState (ticks (snd (frame dt burst b))).
Proof.
  intros H.
  assert (H1 : sameSimulation (setAccumulator (timeAccumulator a + dt) a)
                              (setAccumulator (timeAccumulator b + dt) b)).
  { destruct H as (Hs & Ha & Hq); unfold sameSimulation; cbn.
    rewrite Hs, Ha, Hq; auto. }
  pose proof (stepLoop_same MAX_SIMULATION_STEPS_PER_FRAME _ _ H1) as F.
  pose proof (Forall2_last _ _ _ _ _ F H1) as (Ls & La & Lq).
  split; [|rewrite !frame_ticks; now apply Forall2_same_states].
  unfold sameSimulation.
  rewrite !frame_currentState, !frame_timeAccumulator, !frame_commandQueue.
  rewrite (Forall2_length F), Ls, La, Lq; auto.
Qed.

Lemma runFrames_same (inputs : list (float * list Command)) (a b : World) :
  sameSimulation a b ->
  sameSimulation (fst (runFrames inputs a)) (fst (runFrames inputs b))
  /\ stateTrace (snd (runFrames inputs a)) = stateTrace (snd (runFrames inputs b)).
Proof.
  revert a b; induction inputs as [|[dt burst] rest IH]; intros a b H.
  - split; [exact H | reflexivity].
  - cbn [runFrames].
    destruct (frame_same dt burst a b H) as [Hw Ht].
    destruct (frame dt burst a) as [a1 oa], (frame dt burst b) as [b1 ob].
    cbn [fst snd] in Hw, Ht.
    destruct (IH a1 b1 Hw) as [Hw2 Ht2].
    destruct (runFrames rest a1) as [a2 oas], (runFrames rest b1) as [b2 obs].
    cbn [fst snd] in *. split; [exact Hw2|].
    unfold stateTrace in *; cbn [map concat].
    rewrite !map_app; congruence.
Qed.

(** C2.  Two runs of the scheduler over the same sequence of (clamped
    delta, enqueued commands) pairs, from the same initial [SystemState]
    (with the accumulator at 0 and the queue empty, as [main] starts),
    produce the same sequence of [SystemState] values after each tick,
    equal as binary64 values field by field, whatever the never-initialised
    [previousState] held in either run. *)
Theorem determinism_two_runs
  (inputs : list (float * list Command)) (s0 garbage1 garbage2 : SystemState) :
  stateTrace (snd (runFrames inputs (initWorld s0 garbage1)))
  = stateTrace (snd (runFrames inputs (initWorld s0 garbage2)))
  /\ currentState (fst (runFrames inputs (initWorld s0 garbage1)))
     = currentState (fst (runFrames inputs (initWorld s0 garbage2))).
Proof.
  assert (H : sameSimulation (initWorld s0 garbage1) (initWorld s0 garbage2))
    by (repeat split).
  destruct (runFrames_same inputs _ _ H) as [(Hs & _) Ht]; auto.
Qed.

(** * C7: the clamped delta *)

Lemma wrap64_small (z : Z) :
  (- 2 ^ 63 <= z < 2 ^ 63)%Z -> wrap64 z = z.
Proof.
  intros H; unfold wrap64.
  rewrite Z.mod_small by lia. lia.
Qed.

Lemma clampDt_bounds (dtMs : Z) :
  (0 <= dtMs)%Z ->
  (0 <=? clampDt dtMs) = true /\ (clampDt dtMs <=? MAX_DT_SECONDS) = true.
Proof.
  intros H; unfold clampDt, double_of_int64.
  destruct (Z.ltb_spec dtMs 0) as [L|_]; [lia|].
  set (x := of_uint63 (Uint63.of_Z dtMs) / 1000).
  assert (Hx : (0 <=? x) = true).
  { apply (Double.div_nonneg _ 1000 8796093022208000 (-43));
      [reflexivity | apply Double.of_uint63_nonneg]. }
  destruct (MAX_DT_SECONDS <? x) eqn:C.
  - split; reflexivity.
  - split; [exact Hx|].
    apply Double.ltb_false_leb;
      [now apply Double.nonneg_not_nan | reflexivity | exact C].
Qed.

Lemma mainFrame_frame (now : Z) (m : MainState) :
  fst (mainFrame now m)
  = mkMain now (fst (frame (clampDt (wrap64 (now - lastTickMs m)))
                           inputBurst (world m)))
  /\ fst (snd (mainFrame now m))
     = snd (frame (clampDt (wrap64 (now - lastTickMs m))) inputBurst (world m)).
Proof.
  unfold mainFrame. destruct (frame _ _ _); split; reflexivity.
Qed.

(** C7.  When the clock has not gone back between two samples ([last] at
    the previous frame, [now] at this one; their difference fits
    [int64_t], as C++ requires of the subtraction), the [dtSeconds] that
    main.cpp:107 adds to the accumulator lies between 0 and
    [MAX_DT_SECONDS], both included. *)
Theorem clamped_delta_in_range (last now : Z) (w : World) :
  (last <= now)%Z -> (now - last < 2 ^ 63)%Z ->
  let dtSeconds := clampDt (wrap64 (now - last)) in
  (0 <=? dtSeconds) = true
  /\ (dtSeconds <=? MAX_DT_SECONDS) = true
  /\ fst (mainFrame now (mkMain last w))
     = mkMain now (fst (frame dtSeconds inputBurst w))
  /\ hd 0 (accumulatorPoints dtSeconds inputBurst w)
     = timeAccumulator w + dtSeconds.
Proof.
  intros Hle Hov dtSeconds; subst dtSeconds.
  rewrite wrap64_small by lia.
  destruct (clampDt_bounds (now - last)) as [H0 H1]; [lia|].
  repeat split; auto.
  - destruct (mainFrame_frame now (mkMain last w)) as [E _].
    cbn [lastTickMs world] in E. rewrite wrap64_small in E by lia. exact E.
  - unfold accumulatorPoints. destruct (frame _ _ _); reflexivity.
Qed.

(** Two samples 16 ms apart, and a stall of half a second. *)
Lemma clamped_delta_in_range_witness :
  (1000 <= 1016)%Z /\ (1016 - 1000 < 2 ^ 63)%Z
  /\ clampDt (wrap64 (1016 - 1000)) = 0.016
  /\ (0 <=? clampDt (wrap64 (1016 - 1000))) = true
  /\ (clampDt (wrap64 (1016 - 1000)) <=? MAX_DT_SECONDS) = true.
Proof.
  split; [lia|]. split; [lia|]. split; [reflexivity|].
  pose proof (clamped_delta_in_range 1000 1016
                (initWorld initialState initialState)
                ltac:(lia) ltac:(lia)) as H.
  cbn zeta in H. destruct H as (H0 & H1 & _). split; assumption.
Defined.

(** * C3: bounds on the accumulator *)

Lemma last_cons {A : Type} (x : A) (l : list A) (d : A) :
  last (x :: l) d = last l x.
Proof.
  revert x d; induction l as [|y l IH]; intros x d; [reflexivity|].
  change (last (x :: y :: l) d) with (last (y :: l) d).
  now rewrite (IH y d), (IH y x).
Qed.

Lemma stepLoop_acc_nonneg (n : nat) (w : World) :
  Forall (fun w' => (0 <=? timeAccumulator w') = true) (stepLoop n w).
Proof.
  revert w; induction n as [|n IH]; intros w; cbn [stepLoop]; auto.
  destruct (FIXED_DT_SECONDS <=? timeAccumulator w) eqn:G; auto.
  constructor; [|apply IH].
  rewrite tick_timeAccumulator.
  apply Double.sub_nonneg; [reflexivity | reflexivity | exact G].
Qed.

(** When the loop stops short of its cap, it stopped on the time
    condition. *)
Lemma stepLoop_exit (n : nat) (w : World) :
  length (stepLoop n w) < n ->
  (FIXED_DT_SECONDS <=? timeAccumulator (last (stepLoop n w) w)) = false.
Proof.
  revert w; induction n as [|n IH]; intros w; cbn [stepLoop]; [cbn; lia|].
  destruct (FIXED_DT_SECONDS <=? timeAccumulator w) eqn:G; [|intros _; exact G].
  cbn [length]; intros H. rewrite last_cons. apply IH; lia.
Qed.

Lemma frame_accumulator (dt : float) (burst : list Command) (w : World) :
  (0 <=? timeAccumulator w) = true -> (0 <=? dt) = true ->
  Forall (fun a => (0 <=? a) = true) (accumulatorPoints dt burst w)
  /\ (0 <=? timeAccumulator (fst (frame dt burst w))) = true
  /\ (length (ticks (snd (frame dt burst w))) < MAX_SIMULATION_STEPS_PER_FRAME ->
      (timeAccumulator (fst (frame dt burst w)) <? FIXED_DT_SECONDS) = true)
  /\ (length (ticks (snd (frame dt burst w))) = MAX_SIMULATION_STEPS_PER_FRAME ->
      timeAccumulator (fst (frame dt burst w)) = 0).
Proof.
  intros Hacc Hdt.
  pose proof (Double.add_nonneg _ _ Hacc Hdt) as Hsum.
  set (w1 := setAccumulator (timeAccumulator w + dt) w).
  pose proof (stepLoop_acc_nonneg MAX_SIMULATION_STEPS_PER_FRAME w1) as Hloop.
  assert (Hlast : (0 <=? timeAccumulator
                           (last (stepLoop MAX_SIMULATION_STEPS_PER_FRAME w1) w1))
                  = true)
    by (apply (last_Forall (fun w' => (0 <=? timeAccumulator w') = true));
        [exact Hloop | exact Hsum]).
  assert (Hend : (0 <=? timeAccumulator (fst (frame dt burst w))) = true).
  { rewrite frame_timeAccumulator; fold w1.
    destruct (_ =? _)%nat; [reflexivity | exact Hlast]. }
  split; [|split; [exact Hend|split]].
  - unfold accumulatorPoints.
    pose proof (frame_ticks dt burst w) as Et; fold w1 in Et.
    destruct (frame dt burst w) as [w' out]; cbn [fst snd] in *.
    constructor; [exact Hsum|].
    apply Forall_app; split; [|constructor; [exact Hend | constructor]].
    rewrite Et. apply Forall_map. exact Hloop.
  - rewrite frame_ticks, frame_timeAccumulator; fold w1; intros Hlt.
    destruct (Nat.eqb_spec (length (stepLoop MAX_SIMULATION_STEPS_PER_FRAME w1))
                MAX_SIMULATION_STEPS_PER_FRAME) as [E|_]; [lia|].
    apply Double.leb_false_ltb;
      [now apply Double.nonneg_not_nan | reflexivity |].
    now apply stepLoop_exit.
  - rewrite frame_ticks, frame_timeAccumulator; fold w1; intros Heq.
    now rewrite Heq.
Qed.

(** The same over any run of frames whose deltas are non-negative. *)
Lemma runFrames_accumulator (inputs : list (float * list Command)) (w : World) :
  Forall (fun i => (0 <=? fst i) = true) inputs ->
  (0 <=? timeAccumulator w) = true ->
  Forall (fun a => (0 <=? a) = true) (accumulatorTrace inputs w)
  /\ Forall (fun e => (0 <=? snd e) = true
                      /\ (fst e < MAX_SIMULATION_STEPS_PER_FRAME ->
                          (snd e <? FIXED_DT_SECONDS) = true)
                      /\ (fst e = MAX_SIMULATION_STEPS_PER_FRAME -> snd e = 0))
            (frameEnds inputs w).
Proof.
  intros Hin; revert w; induction Hin as [|[dt burst] rest Hdt Hrest IH];
    intros w Hacc; cbn [accumulatorTrace frameEnds]; [split; constructor|].
  cbn [fst] in Hdt.
  destruct (frame_accumulator dt burst w Hacc Hdt) as (Hp & He & Hc & Hz).
  destruct (IH _ He) as [IH1 IH2].
  split; [apply Forall_app; split; assumption|].
  destruct (frame dt burst w) as [w' out]; cbn [fst snd] in *.
  constructor; [repeat split; assumption | exact IH2].
Qed.

Lemma clockInputs_nonneg (last : Z) (clock : list Z) :
  steadyClock last clock ->
  Forall (fun i => (0 <=? fst i) = true) (clockInputs last clock).
Proof.
  revert last; induction clock as [|now rest IH]; intros last;
    cbn [steadyClock clockInputs]; [constructor|].
  intros (Hle & Hov & Hrest). constructor; [|now apply IH].
  cbn [fst]. rewrite wrap64_small by lia. apply clampDt_bounds; lia.
Qed.

(** A run of [main] is a run of the scheduler on the clamped deltas of its
    clock samples, ten [Accelerate 0.1] enqueued per frame. *)
Lemma runMain_runFrames (clock : list Z) (m : MainState) :
  world (fst (runMain clock m))
  = fst (runFrames (clockInputs (lastTickMs m) clock) (world m))
  /\ map fst (snd (runMain clock m))
     = snd (runFrames (clockInputs (lastTickMs m) clock) (world m)).
Proof.
  revert m; induction clock as [|now rest IH]; intros m;
    cbn [runMain clockInputs runFrames]; [split; reflexivity|].
  destruct (mainFrame_frame now m) as [E1 E2].
  destruct (mainFrame now m) as [m1 [out line]]; cbn [fst snd] in E1, E2.
  destruct (frame _ inputBurst (world m)) as [w1 out1]; cbn [fst snd] in E1, E2.
  subst m1 out. specialize (IH (mkMain now w1)); cbn [lastTickMs world] in IH.
  destruct (runMain rest (mkMain now w1)) as [m2 outs].
  destruct (runFrames (clockInputs now rest) w1) as [w2 outs'].
  cbn [fst snd map] in *. destruct IH as [I1 I2]. split; congruence.
Qed.

(** C3.  In every run of [main] under a clock that never goes back, from
    the first frame on: every value [timeAccumulator] takes (after the
    addition of the frame's delta, after each tick, at the end of the
    frame) is at least 0, and a frame that ran fewer than
    [MAX_SIMULATION_STEPS_PER_FRAME] ticks ends with
    [0 <= timeAccumulator < FIXED_DT_SECONDS]. *)
Theorem accumulator_bounded (garbage : SystemState) (start : Z) (clock : list Z) :
  steadyClock start clock ->
  let inputs := clockInputs start clock in
  let w0 := world (mainInit garbage start) in
  Forall (fun a => (0 <=? a) = true) (accumulatorTrace inputs w0)
  /\ Forall (fun e => (0 <=? snd e) = true
                      /\ (fst e < MAX_SIMULATION_STEPS_PER_FRAME ->
                          (snd e <? FIXED_DT_SECONDS) = true)
                      /\ (fst e = MAX_SIMULATION_STEPS_PER_FRAME -> snd e = 0))
            (frameEnds inputs w0).
Proof.
  intros Hclock inputs w0.
  apply runFrames_accumulator; [now apply clockInputs_nonneg | reflexivity].
Qed.

(** A stall of half a second, then frames 16 ms apart. *)
Lemma accumulator_bounded_witness :
  steadyClock 0 [0; 500; 516; 532]%Z
  /\ map fst (frameEnds (clockInputs 0 [0; 500; 516; 532]%Z)
                (world (mainInit initialState 0)))
     = [0; 4; 2; 2]%nat
  /\ Forall (fun a => (0 <=? a) = true)
       (accumulatorTrace (clockInputs 0 [0; 500; 516; 532]%Z)
          (world (mainInit initialState 0)))
  /\ Forall (fun e => (0 <=? snd e) = true
                      /\ (fst e < MAX_SIMULATION_STEPS_PER_FRAME ->
                          (snd e <? FIXED_DT_SECONDS) = true)
                      /\ (fst e = MAX_SIMULATION_STEPS_PER_FRAME -> snd e = 0))
       (frameEnds (clockInputs 0 [0; 500; 516; 532]%Z)
          (world (mainInit initialState 0))).
Proof.
  assert (H : steadyClock 0 [0; 500; 516; 532]%Z) by (cbn; lia).
  split; [exact H|]. split; [vm_compute; reflexivity|].
  exact (accumulator_bounded initialState 0 [0; 500; 516; 532]%Z H).
Defined.

(** * C9: intake overflow, then one tick *)

Lemma floodAnswers_eq : floodAnswers = repeat true 32 ++ repeat false 8.
Proof. vm_compute; reflexivity. Qed.

Lemma floodQueue_eq : floodQueue = repeat (mkCommand Accelerate 0.1) 32.
Proof. vm_compute; reflexivity. Qed.

Lemma floodTick_drain (s previous : SystemState) (acc : float) :
  valid s = true ->
  fst (drainCommands MAX_COMMANDS_PER_STEP s floodQueue)
  = mkState (position s) (velocity s + 0.1 + 0.1 + 0.1 + 0.1) true
  /\ snd (drainCommands MAX_COMMANDS_PER_STEP s floodQueue)
     = repeat (mkCommand Accelerate 0.1) 28.
Proof.
  intros Hv. rewrite floodQueue_eq.
  cbn [repeat drainCommands MAX_COMMANDS_PER_STEP fst snd].
  rewrite (applyCommand_valid s) by exact Hv; cbn [type value].
  rewrite !applyCommand_valid by reflexivity; cbn [type value position velocity].
  split; reflexivity.
Qed.

(** From the state [main] starts with, velocity 1, the four additions of
    0.1 give 1.4000000000000004: neither [1 + 0.4] nor a difference of
    0.4. *)
Lemma intake_overflow_counterexample :
  velocity (currentState (floodTick initialState initialState FIXED_DT_SECONDS))
    = 1.4000000000000004
  /\ velocity (currentState (floodTick initialState initialState FIXED_DT_SECONDS))
     <> velocity initialState + 0.4
  /\ velocity (currentState (floodTick initialState initialState FIXED_DT_SECONDS))
     - velocity initialState <> 0.4.
Proof.
  assert (E : velocity (currentState
                (floodTick initialState initialState FIXED_DT_SECONDS))
              = 1.4000000000000004) by (vm_compute; reflexivity).
  rewrite E. split; [reflexivity|]. split; intros H.
  - apply (f_equal (fun x => x =? 1.4000000000000004)) in H.
    vm_compute in H. discriminate.
  - apply (f_equal (fun x => x =? 0.4)) in H.
    vm_compute in H. discriminate.
Qed.

(** Whatever the state, the first tick takes four commands off the full
    queue. *)
Lemma floodTick_queue (s previous : SystemState) (acc : float) :
  commandQueue (floodTick s previous acc)
  = repeat (mkCommand Accelerate 0.1) 28.
Proof.
  unfold floodTick. rewrite tick_commandQueue; cbn [currentState commandQueue].
  rewrite floodQueue_eq. reflexivity.
Qed.

(** C9, amended.  Forty [Accelerate 0.1] offered to the empty queue: the
    first 32 calls answer [true], the last 8 [false], and 32 commands are
    queued.  The first tick then drains four of them and leaves 28,
    whatever the state.  For a valid state whose integrated position is
    not below zero, the velocity after that tick is the binary64 sum
    [(((v + 0.1) + 0.1) + 0.1) + 0.1], each addition rounded. *)
Theorem intake_overflow_scenario (s previous : SystemState) (acc : float) :
  floodAnswers = repeat true 32 ++ repeat false 8
  /\ length floodQueue = 32%nat
  /\ length (commandQueue (floodTick s previous acc)) = 28%nat
  /\ (valid s = true ->
      (position s + (velocity s + 0.1 + 0.1 + 0.1 + 0.1) * FIXED_DT_SECONDS
       <? 0) = false ->
      velocity (currentState (floodTick s previous acc))
      = velocity s + 0.1 + 0.1 + 0.1 + 0.1).
Proof.
  split; [exact floodAnswers_eq|].
  split; [rewrite floodQueue_eq; apply repeat_length|].
  split; [rewrite floodTick_queue; apply repeat_length|].
  intros Hv Hpos.
  destruct (floodTick_drain s previous acc Hv) as [D1 _].
  unfold floodTick.
  rewrite tick_currentState; cbn [currentState commandQueue].
  rewrite D1.
  unfold updateSystem; cbn [valid negb position velocity].
  now rewrite Hpos.
Qed.

(** From velocity 0 the sum is the binary64 value of 0.4; from [main]'s
    velocity 1 it is 1.4000000000000004.  An invalid state sees the same
    counts. *)
Lemma intake_overflow_scenario_witness :
  valid initialState = true
  /\ velocity initialState + 0.1 + 0.1 + 0.1 + 0.1 = 1.4000000000000004
  /\ 0 + 0.1 + 0.1 + 0.1 + 0.1 = 0.4
  /\ length (commandQueue (floodTick initialState initialState FIXED_DT_SECONDS))
     = 28%nat
  /\ length (commandQueue (floodTick (mkState 0 0 false) initialState 0))
     = 28%nat
  /\ velocity (currentState (floodTick initialState initialState FIXED_DT_SECONDS))
     = velocity initialState + 0.1 + 0.1 + 0.1 + 0.1.
Proof.
  split; [reflexivity|]. split; [reflexivity|]. split; [reflexivity|].
  destruct (intake_overflow_scenario initialState initialState FIXED_DT_SECONDS)
    as (_ & _ & L & V).
  destruct (intake_overflow_scenario (mkState 0 0 false) initialState 0)
    as (_ & _ & L' & _).
  split; [exact L|]. split; [exact L'|].
  apply V; reflexivity.
Defined.

(** * C10: what is displayed before the first tick *)

Lemma frame_no_tick (dt : float) (burst : list Command) (w : World) :
  (FIXED_DT_SECONDS <=? timeAccumulator w + dt) = false ->
  ticks (snd (frame dt burst w)) = []
  /\ currentState (fst (frame dt burst w)) = currentState w
  /\ previousState (fst (frame dt burst w)) = previousState w
  /\ timeAccumulator (fst (frame dt burst w)) = timeAccumulator w + dt
  /\ visualState (snd (frame dt burst w))
     = interpolateState (previousState w) (currentState w)
         ((timeAccumulator w + dt) / FIXED_DT_SECONDS).
Proof.
  intros G.
  assert (E : stepLoop MAX_SIMULATION_STEPS_PER_FRAME
                (setAccumulator (timeAccumulator w + dt) w) = [])
    by (cbn [stepLoop MAX_SIMULATION_STEPS_PER_FRAME setAccumulator
             timeAccumulator]; now rewrite G).
  assert (A : timeAccumulator (fst (frame dt burst w)) = timeAccumulator w + dt)
    by (rewrite frame_timeAccumulator, E; reflexivity).
  rewrite frame_ticks, frame_currentState, frame_previousState,
    frame_visualState, A, E.
  repeat split; reflexivity.
Qed.

Lemma runFrames_no_tick (inputs : list (float * list Command)) (w : World) :
  belowTick (timeAccumulator w) (map fst inputs) ->
  Forall (fun out => ticks out = []) (snd (runFrames inputs w))
  /\ currentState (fst (runFrames inputs w)) = currentState w
  /\ previousState (fst (runFrames inputs w)) = previousState w
  /\ map visualState (snd (runFrames inputs w))
     = preTickDisplays (previousState w) (currentState w)
         (timeAccumulator w) (map fst inputs).
Proof.
  revert w; induction inputs as [|[dt burst] rest IH]; intros w;
    cbn [map fst belowTick runFrames preTickDisplays].
  - intros _; repeat split; constructor.
  - intros [G B].
    destruct (frame_no_tick dt burst w G) as (Ft & Fc & Fp & Fa & Fv).
    destruct (frame dt burst w) as [w1 out]; cbn [fst snd] in *.
    rewrite <- Fa in B. destruct (IH w1 B) as (It & Ic & Ip & Iv).
    destruct (runFrames rest w1) as [w2 outs]; cbn [fst snd map] in *.
    repeat split.
    + constructor; assumption.
    + congruence.
    + congruence.
    + rewrite Fv, Iv, Fc, Fp, Fa. reflexivity.
Qed.

(** C10.  As long as the accumulated deltas have not reached
    [FIXED_DT_SECONDS], no tick has run, [previousState] still holds what
    it held when [main] began (it is assigned nowhere but in a tick), and
    each frame displays the blend of that never-assigned value with the
    initial state.  The display therefore varies with the uninitialised
    memory: on [main]'s own first two frames (clock samples 0 and 5 ms
    after the start), two runs that differ in nothing but that memory
    print different positions and velocities. *)
Theorem display_reads_uninitialised_previousState
  (s0 garbage : SystemState) (inputs : list (float * list Command)) :
  belowTick 0 (map fst inputs) ->
  Forall (fun out => ticks out = [])
         (snd (runFrames inputs (initWorld s0 garbage)))
  /\ previousState (fst (runFrames inputs (initWorld s0 garbage))) = garbage
  /\ map visualState (snd (runFrames inputs (initWorld s0 garbage)))
     = preTickDisplays garbage s0 0 (map fst inputs)
  /\ mainDisplays (mkState 7 7 false) 0 [0; 5]%Z
     = [mkState 7 7 true; mkState 3.5 4 true]
  /\ mainDisplays (mkState 8 8 false) 0 [0; 5]%Z
     = [mkState 8 8 true; mkState 4 4.5 true]
  /\ mainDisplays (mkState 7 7 false) 0 [0; 5]%Z
     <> mainDisplays (mkState 8 8 false) 0 [0; 5]%Z.
Proof.
  intros B.
  destruct (runFrames_no_tick inputs (initWorld s0 garbage) B)
    as (Ht & _ & Hp & Hv).
  assert (D7 : mainDisplays (mkState 7 7 false) 0 [0; 5]%Z
               = [mkState 7 7 true; mkState 3.5 4 true])
    by (vm_compute; reflexivity).
  assert (D8 : mainDisplays (mkState 8 8 false) 0 [0; 5]%Z
               = [mkState 8 8 true; mkState 4 4.5 true])
    by (vm_compute; reflexivity).
  repeat split; try assumption.
  rewrite D7, D8. intros H.
  apply (f_equal (fun l => match l with
                           | s :: _ => position s =? 7
                           | [] => false
                           end)) in H.
  vm_compute in H. discriminate.
Qed.

(** The first two frames of [main], 0 and 5 ms after the start: their
    deltas stay below a tick. *)
Lemma display_reads_uninitialised_previousState_witness :
  belowTick 0 (map fst (clockInputs 0 [0; 5]%Z))
  /\ map visualState
       (snd (runFrames (clockInputs 0 [0; 5]%Z)
               (initWorld initialState (mkState 7 7 false))))
     = preTickDisplays (mkState 7 7 false) initialState 0
         (map fst (clockInputs 0 [0; 5]%Z)).
Proof.
  assert (B : belowTick 0 (map fst (clockInputs 0 [0; 5]%Z)))
    by (cbn; repeat split; reflexivity).
  split; [exact B|].
  exact (proj1 (proj2 (proj2
    (display_reads_uninitialised_previousState
       initialState (mkState 7 7 false) (clockInputs 0 [0; 5]%Z) B)))).
Defined.

(** * Further properties of the code *)

(** ** The command queue *)

Lemma drainCommands_firstn_skipn (budget : nat) (s : SystemState)
  (q : CommandQueue) :
  drainCommands budget s q
  = (fold_left applyCommand (firstn budget q) s, skipn budget q).
Proof.
  revert s q; induction budget as [|b IH]; intros s [|c q];
    cbn [drainCommands firstn skipn fold_left]; auto.
Qed.

(** X1.  One tick applies the queued commands in queue order, the first
    [MAX_COMMANDS_PER_STEP] of them at most, before it integrates; the
    commands it did not reach stay queued in their order, and the queue
    shrinks by four or to empty. *)
Theorem tick_drains_fifo (w : World) :
  currentState (tick w)
  = updateSystem
      (fold_left applyCommand
         (firstn MAX_COMMANDS_PER_STEP (commandQueue w)) (currentState w))
      FIXED_DT_SECONDS
  /\ commandQueue (tick w) = skipn MAX_COMMANDS_PER_STEP (commandQueue w)
  /\ commandQueue w
     = firstn MAX_COMMANDS_PER_STEP (commandQueue w) ++ commandQueue (tick w)
  /\ length (commandQueue (tick w))
     = (length (commandQueue w) - MAX_COMMANDS_PER_STEP)%nat.
Proof.
  rewrite tick_currentState, tick_commandQueue, drainCommands_firstn_skipn.
  cbn [fst snd]. repeat split.
  - symmetry; apply firstn_skipn.
  - apply length_skipn.
Qed.

Lemma enqueueAll_firstn (cmds : list Command) (q : CommandQueue) :
  enqueueAll cmds q
  = (repeat true
       (Nat.min (MAX_COMMAND_QUEUE_SIZE - length q)%nat (length cmds))
       ++ repeat false
            (length cmds - (MAX_COMMAND_QUEUE_SIZE - length q))%nat,
     q ++ firstn (MAX_COMMAND_QUEUE_SIZE - length q)%nat cmds).
Proof.
  revert q; induction cmds as [|c cmds IH]; intros q.
  - cbn [enqueueAll length]. rewrite Nat.min_0_r, firstn_nil, (app_nil_r q).
    reflexivity.
  - cbn [enqueueAll]. unfold enqueueCommand.
    destruct (Nat.leb_spec MAX_COMMAND_QUEUE_SIZE (length q)) as [Full|Room].
    + rewrite IH.
      replace (MAX_COMMAND_QUEUE_SIZE - length q)%nat with 0%nat by lia.
      cbn [Nat.min firstn repeat app length]. rewrite !Nat.sub_0_r.
      reflexivity.
    + rewrite IH, length_app. cbn [length].
      destruct (MAX_COMMAND_QUEUE_SIZE - length q)%nat as [|k] eqn:K; [lia|].
      replace (MAX_COMMAND_QUEUE_SIZE - (length q + 1))%nat with k by lia.
      cbn [Nat.min firstn repeat app Nat.sub].
      rewrite <- app_assoc. reflexivity.
Qed.

(** X2.  A burst of intake calls accepts exactly as many of its first
    commands as the queue has room for and rejects all later ones: the
    answers are a run of [true] followed by a run of [false], and the
    queue afterwards is the old queue, untouched and in order, followed by
    the accepted commands in the order they were offered.  Nothing already
    queued is evicted or reordered. *)
Theorem intake_keeps_oldest (cmds : list Command) (q : CommandQueue) :
  let room := (MAX_COMMAND_QUEUE_SIZE - length q)%nat in
  fst (enqueueAll cmds q)
  = repeat true (Nat.min room (length cmds))
      ++ repeat false (length cmds - room)%nat
  /\ snd (enqueueAll cmds q) = q ++ firstn room cmds.
Proof.
  cbn zeta. rewrite enqueueAll_firstn. split; reflexivity.
Qed.

Lemma stepLoop_le (n : nat) (w : World) : length (stepLoop n w) <= n.
Proof. rewrite stepLoop_length. apply ticksOwed_le. Qed.

Lemma stepLoop_queue (n : nat) (w : World) :
  commandQueue (last (stepLoop n w) w)
  = skipn (MAX_COMMANDS_PER_STEP * length (stepLoop n w)) (commandQueue w).
Proof.
  revert w; induction n as [|n IH]; intros w; cbn [stepLoop].
  - rewrite Nat.mul_0_r. reflexivity.
  - destruct (FIXED_DT_SECONDS <=? timeAccumulator w).
    + rewrite last_cons, IH, tick_commandQueue, drainCommands_firstn_skipn.
      cbn [snd length]. rewrite skipn_skipn. f_equal. lia.
    + cbn [length last]. rewrite Nat.mul_0_r. reflexivity.
Qed.

(** X3.  The work of one frame is bounded whatever the accumulator and the
    delta hold (huge, infinite or NaN): at most
    [MAX_SIMULATION_STEPS_PER_FRAME] ticks run, hence at most twenty
    commands are consumed; with [k] ticks run, the queue the frame leaves
    is the old queue without its first [4 * k] commands, followed by as
    much of the frame's burst as fits. *)
Theorem frame_work_bounded (dtSeconds : float) (burst : list Command)
  (w : World) :
  let k := length (ticks (snd (frame dtSeconds burst w))) in
  let rest := skipn (MAX_COMMANDS_PER_STEP * k) (commandQueue w) in
  k <= MAX_SIMULATION_STEPS_PER_FRAME
  /\ commandQueue (fst (frame dtSeconds burst w))
     = rest ++ firstn (MAX_COMMAND_QUEUE_SIZE - length rest)%nat burst
  /\ (length (commandQueue w) - 20 <= length rest)%nat.
Proof.
  cbn zeta. rewrite frame_ticks, frame_commandQueue, enqueueAll_firstn.
  set (w1 := setAccumulator (timeAccumulator w + dtSeconds) w).
  pose proof (stepLoop_le MAX_SIMULATION_STEPS_PER_FRAME w1) as Hk.
  rewrite (stepLoop_queue MAX_SIMULATION_STEPS_PER_FRAME w1).
  change (commandQueue w1) with (commandQueue w). cbn [snd].
  repeat split; [exact Hk|].
  rewrite length_skipn.
  unfold MAX_SIMULATION_STEPS_PER_FRAME, MAX_COMMANDS_PER_STEP in *. lia.
Qed.

Lemma stepLoop_queue_bound (n : nat) (w : World) (bound : nat) :
  length (commandQueue w) <= bound ->
  Forall (fun w' => length (commandQueue w') <= bound) (stepLoop n w).
Proof.
  revert w; induction n as [|n IH]; intros w H; cbn [stepLoop]; auto.
  destruct (FIXED_DT_SECONDS <=? timeAccumulator w); auto.
  assert (H' : length (commandQueue (tick w)) <= bound).
  { rewrite tick_commandQueue, drainCommands_firstn_skipn. cbn [snd].
    rewrite length_skipn. lia. }
  constructor; auto.
Qed.

Lemma frame_queue_bound (dt : float) (burst : list Command) (w : World) :
  length (commandQueue w) <= MAX_COMMAND_QUEUE_SIZE ->
  Forall (fun w' => length (commandQueue w') <= MAX_COMMAND_QUEUE_SIZE)
         (ticks (snd (frame dt burst w)))
  /\ length (commandQueue (fst (frame dt burst w))) <= MAX_COMMAND_QUEUE_SIZE.
Proof.
  intros H. rewrite frame_ticks, frame_commandQueue.
  set (w1 := setAccumulator (timeAccumulator w + dt) w).
  pose proof (stepLoop_queue_bound MAX_SIMULATION_STEPS_PER_FRAME w1 _ H) as F.
  split; [exact F|]. apply enqueueAll_length.
  now apply (last_Forall
               (fun w' => length (commandQueue w') <= MAX_COMMAND_QUEUE_SIZE)).
Qed.

Lemma runFrames_queue_bound (inputs : list (float * list Command)) (w : World) :
  length (commandQueue w) <= MAX_COMMAND_QUEUE_SIZE ->
  Forall (fun out =>
            Forall (fun w' => length (commandQueue w') <= MAX_COMMAND_QUEUE_SIZE)
                   (ticks out))
         (snd (runFrames inputs w))
  /\ length (commandQueue (fst (runFrames inputs w))) <= MAX_COMMAND_QUEUE_SIZE.
Proof.
  revert w; induction inputs as [|[dt burst] rest IH]; intros w H;
    cbn [runFrames]; [split; [constructor | exact H]|].
  destruct (frame_queue_bound dt burst w H) as [Ft Fq].
  destruct (frame dt burst w) as [w1 out]; cbn [fst snd] in Ft, Fq.
  destruct (IH w1 Fq) as [It Iq].
  destruct (runFrames rest w1) as [w2 outs]; cbn [fst snd] in *.
  split; [constructor; assumption | exact Iq].
Qed.

(** X4.  The queue never holds more than [MAX_COMMAND_QUEUE_SIZE]
    commands: in every run of the scheduler that starts with an empty
    queue, whatever the deltas and however large the bursts offered per
    frame, the queue has at most 32 entries after every tick and at the
    end of every frame. *)
Theorem queue_never_exceeds_capacity
  (inputs : list (float * list Command)) (s0 garbage : SystemState) :
  Forall (fun out => Forall (fun w' => length (commandQueue w') <= 32)
                            (ticks out))
         (snd (runFrames inputs (initWorld s0 garbage)))
  /\ length (commandQueue (fst (runFrames inputs (initWorld s0 garbage)))) <= 32.
Proof.
  apply (runFrames_queue_bound inputs (initWorld s0 garbage)).
  cbn; unfold MAX_COMMAND_QUEUE_SIZE; lia.
Qed.

(** ** The simulated state *)

Module DoubleSign.

Lemma SFmul_nonneg (x : spec_float) (my : positive) (ey : Z) :
  SFnonneg x = true ->
  SFnonneg (SFmul prec emax x (S754_finite false my ey)) = true.
Proof.
  destruct x as [sx|sx| |sx mx ex]; cbn [SFmul SFnonneg]; try congruence;
    try (destruct sx; cbn; congruence).
  destruct sx; cbn [negb xorb]; [congruence | intros _].
  apply Double.binary_round_aux_nonneg; lia.
Qed.

Lemma SFnonneg_not_ltb (x : spec_float) :
  SFnonneg x = true -> SFltb x (S754_zero false) = false.
Proof. destruct x as [s|s| |s m e]; try destruct s; cbn; congruence. Qed.

Lemma mul_nonneg (x y : float) (my : positive) (ey : Z) :
  Prim2SF y = S754_finite false my ey ->
  (0 <=? x) = true -> (0 <=? x * y) = true.
Proof.
  rewrite !Double.leb_zero, mul_spec; intros ->; apply SFmul_nonneg.
Qed.

Lemma nonneg_not_ltb (x : float) : (0 <=? x) = true -> (x <? 0) = false.
Proof.
  rewrite Double.leb_zero, ltb_spec.
  change (Prim2SF 0) with (S754_zero false). apply SFnonneg_not_ltb.
Qed.

End DoubleSign.

Lemma applyCommand_settled (s : SystemState) (cmd : Command) :
  settled s -> settled (applyCommand s cmd).
Proof.
  unfold settled, applyCommand. destruct (valid s) eqn:V; cbn [negb]; auto.
  - destruct (type cmd); cbn [valid position]; auto.
  - rewrite V; auto.
Qed.

Lemma updateSystem_settled (s : SystemState) (dt : float) :
  settled s -> settled (updateSystem s dt).
Proof.
  unfold settled, updateSystem. destruct (valid s) eqn:V; cbn [negb].
  - intros _. destruct (_ <? 0) eqn:N; cbn [valid position velocity]; auto.
  - rewrite V; auto.
Qed.

Lemma fold_applyCommand_settled (cmds : list Command) (s : SystemState) :
  settled s -> settled (fold_left applyCommand cmds s).
Proof.
  revert s; induction cmds as [|c cmds IH]; intros s H; cbn [fold_left]; auto.
  apply IH, applyCommand_settled, H.
Qed.

(** A property of [currentState] that every tick keeps holds after every
    tick of every run, and at its end. *)
Lemma stepLoop_state_invariant (P : World -> Prop) (n : nat) (w : World) :
  (forall v, P v -> P (tick v)) ->
  P w -> Forall P (stepLoop n w).
Proof.
  intros Step; revert w; induction n as [|n IH]; intros w H; cbn [stepLoop]; auto.
  destruct (FIXED_DT_SECONDS <=? timeAccumulator w); auto.
Qed.

Lemma tick_settled (w : World) :
  settled (currentState w) -> settled (currentState (tick w)).
Proof.
  intros H. rewrite tick_currentState, drainCommands_firstn_skipn. cbn [fst].
  apply updateSystem_settled, fold_applyCommand_settled, H.
Qed.

Lemma frame_settled (dt : float) (burst : list Command) (w : World) :
  settled (currentState w) ->
  Forall (fun w' => settled (currentState w')) (ticks (snd (frame dt burst w)))
  /\ settled (currentState (fst (frame dt burst w))).
Proof.
  intros H. rewrite frame_ticks, frame_currentState.
  set (w1 := setAccumulator (timeAccumulator w + dt) w).
  pose proof (stepLoop_state_invariant (fun v => settled (currentState v))
                MAX_SIMULATION_STEPS_PER_FRAME w1 tick_settled H) as F.
  split; [exact F|].
  now apply (last_Forall (fun v => settled (currentState v))).
Qed.

(** X5.  From a valid state with a non-negative position (or any state
    that is [settled]), every state the scheduler produces is settled,
    whatever the deltas and the commands: while [valid] holds the position
    is not below 0, and once [valid] is false the state is exactly
    position 0, velocity 0. *)
Theorem states_stay_settled
  (inputs : list (float * list Command)) (w : World) :
  settled (currentState w) ->
  Forall settled (stateTrace (snd (runFrames inputs w)))
  /\ settled (currentState (fst (runFrames inputs w))).
Proof.
  revert w; induction inputs as [|[dt burst] rest IH]; intros w H;
    cbn [runFrames]; [split; [constructor | exact H]|].
  destruct (frame_settled dt burst w H) as [Ft Fc].
  destruct (frame dt burst w) as [w1 out]; cbn [fst snd] in Ft, Fc.
  destruct (IH w1 Fc) as [It Ic].
  destruct (runFrames rest w1) as [w2 outs]; cbn [fst snd] in *.
  split; [|exact Ic].
  unfold stateTrace in *; cbn [map concat]. rewrite map_app.
  apply Forall_app; split; [|exact It].
  apply Forall_map. exact Ft.
Qed.

(** Scenario D as a run: one 10 ms frame from [{0.02, -5, true}] ends in
    the failed state, which is settled. *)
Lemma states_stay_settled_witness :
  settled (currentState (initWorld (mkState 0.02 (-5) true) initialState))
  /\ stateTrace (snd (runFrames [(0.01, [])]
                        (initWorld (mkState 0.02 (-5) true) initialState)))
     = [mkState 0 0 false]
  /\ Forall settled
       (stateTrace (snd (runFrames [(0.01, [])]
                           (initWorld (mkState 0.02 (-5) true) initialState)))).
Proof.
  assert (H : settled (currentState
                         (initWorld (mkState 0.02 (-5) true) initialState)))
    by reflexivity.
  split; [exact H|]. split; [vm_compute; reflexivity|].
  exact (proj1 (states_stay_settled [(0.01, [])]
                  (initWorld (mkState 0.02 (-5) true) initialState) H)).
Defined.

Lemma applyCommand_forward (s : SystemState) (cmd : Command) :
  forward s -> gentle cmd -> forward (applyCommand s cmd).
Proof.
  intros (V & P & Vel) G. rewrite applyCommand_valid by exact V.
  unfold gentle in G. destruct (type cmd); repeat split; cbn; auto.
  now apply Double.add_nonneg.
Qed.

Lemma fold_applyCommand_forward (cmds : list Command) (s : SystemState) :
  forward s -> Forall gentle cmds -> forward (fold_left applyCommand cmds s).
Proof.
  intros H F; revert s H; induction F as [|c cmds Gc Gr IH]; intros s H;
    cbn [fold_left]; auto using applyCommand_forward.
Qed.

Lemma updateSystem_forward (s : SystemState) :
  forward s -> forward (updateSystem s FIXED_DT_SECONDS).
Proof.
  intros (V & P & Vel). unfold updateSystem. rewrite V; cbn [negb].
  assert (Hp : (0 <=? position s + velocity s * FIXED_DT_SECONDS) = true).
  { apply Double.add_nonneg; [exact P|].
    now apply (DoubleSign.mul_nonneg _ _ 5764607523034235 (-59)). }
  rewrite (DoubleSign.nonneg_not_ltb _ Hp). repeat split; assumption.
Qed.

Lemma tick_forward (w : World) :
  forward (currentState w) /\ Forall gentle (commandQueue w) ->
  forward (currentState (tick w)) /\ Forall gentle (commandQueue (tick w)).
Proof.
  intros [H G].
  rewrite tick_currentState, tick_commandQueue, drainCommands_firstn_skipn.
  cbn [fst snd]. split.
  - apply updateSystem_forward, fold_applyCommand_forward; [exact H|].
    rewrite <- (firstn_skipn MAX_COMMANDS_PER_STEP) in G.
    apply Forall_app in G. apply G.
  - rewrite <- (firstn_skipn MAX_COMMANDS_PER_STEP) in G.
    apply Forall_app in G. apply G.
Qed.

Lemma frame_forward (dt : float) (burst : list Command) (w : World) :
  forward (currentState w) -> Forall gentle (commandQueue w) ->
  Forall gentle burst ->
  Forall (fun w' => forward (currentState w')) (ticks (snd (frame dt burst w)))
  /\ forward (currentState (fst (frame dt burst w)))
  /\ Forall gentle (commandQueue (fst (frame dt burst w))).
Proof.
  intros H G B.
  rewrite frame_ticks, frame_currentState, frame_commandQueue,
    enqueueAll_firstn.
  set (w1 := setAccumulator (timeAccumulator w + dt) w).
  pose proof (stepLoop_state_invariant
                (fun v => forward (currentState v)
                          /\ Forall gentle (commandQueue v))
                MAX_SIMULATION_STEPS_PER_FRAME w1 tick_forward (conj H G)) as F.
  pose proof (last_Forall _ _ w1 F (conj H G)) as [Lf Lg].
  split; [|split; [exact Lf|]].
  - eapply Forall_impl; [|exact F]. intros v Hv; apply Hv.
  - cbn [snd]. apply Forall_app; split; [exact Lg|].
    rewrite <- (firstn_skipn (MAX_COMMAND_QUEUE_SIZE
                              - length (commandQueue
                                  (last (stepLoop MAX_SIMULATION_STEPS_PER_FRAME
                                           w1) w1)))%nat burst) in B.
    apply Forall_app in B. apply B.
Qed.

Lemma runFrames_forward (inputs : list (float * list Command)) (w : World) :
  forward (currentState w) -> Forall gentle (commandQueue w) ->
  Forall (fun i => Forall gentle (snd i)) inputs ->
  Forall forward (stateTrace (snd (runFrames inputs w)))
  /\ forward (currentState (fst (runFrames inputs w))).
Proof.
  intros H G I; revert w H G; induction I as [|[dt burst] rest B R IH];
    intros w H G; cbn [runFrames]; [split; [constructor | exact H]|].
  cbn [snd] in B.
  destruct (frame_forward dt burst w H G B) as (Ft & Fc & Fq).
  destruct (frame dt burst w) as [w1 out]; cbn [fst snd] in Ft, Fc, Fq.
  destruct (IH w1 Fc Fq) as [It Ic].
  destruct (runFrames rest w1) as [w2 outs]; cbn [fst snd] in *.
  split; [|exact Ic].
  unfold stateTrace in *; cbn [map concat]. rewrite map_app.
  apply Forall_app; split; [|exact It].
  apply Forall_map. exact Ft.
Qed.

(** X6.  A state that is valid with position and velocity at least 0 stays
    so for ever when every command is gentle ([Stop], or [Accelerate] by
    at least 0): over any deltas, every state after a tick is valid, its
    position and velocity are at least 0 (in particular no NaN), and the
    boundary rule of the integrator never fires. *)
Theorem gentle_commands_never_invalidate
  (inputs : list (float * list Command)) (w : World) :
  forward (currentState w) -> Forall gentle (commandQueue w) ->
  Forall (fun i => Forall gentle (snd i)) inputs ->
  Forall forward (stateTrace (snd (runFrames inputs w)))
  /\ forward (currentState (fst (runFrames inputs w))).
Proof. apply runFrames_forward. Qed.

(** Two frames, 20 ms with [Accelerate 2; Stop; Accelerate 0.5] offered and
    then a 50 ms stall: six ticks. *)
Lemma gentle_commands_never_invalidate_witness :
  forward (currentState (initWorld initialState initialState))
  /\ Forall gentle (commandQueue (initWorld initialState initialState))
  /\ Forall (fun i => Forall gentle (snd i))
       [(0.02, [mkCommand Accelerate 2; mkCommand Stop 0;
                mkCommand Accelerate 0.5]); (0.05, [])]
  /\ length (stateTrace (snd (runFrames
       [(0.02, [mkCommand Accelerate 2; mkCommand Stop 0;
                mkCommand Accelerate 0.5]); (0.05, [])]
       (initWorld initialState initialState)))) = 6%nat
  /\ Forall forward (stateTrace (snd (runFrames
       [(0.02, [mkCommand Accelerate 2; mkCommand Stop 0;
                mkCommand Accelerate 0.5]); (0.05, [])]
       (initWorld initialState initialState)))).
Proof.
  assert (H : forward (currentState (initWorld initialState initialState)))
    by (repeat split).
  assert (G : Forall gentle (commandQueue (initWorld initialState initialState)))
    by constructor.
  assert (I : Forall (fun i => Forall gentle (snd i))
                [(0.02, [mkCommand Accelerate 2; mkCommand Stop 0;
                         mkCommand Accelerate 0.5]); (0.05, [])])
    by (repeat constructor).
  split; [exact H|]. split; [exact G|]. split; [exact I|].
  split; [vm_compute; reflexivity|].
  exact (proj1 (gentle_commands_never_invalidate _ _ H G I)).
Defined.

Lemma clockInputs_gentle (last : Z) (clock : list Z) :
  Forall (fun i => Forall gentle (snd i)) (clockInputs last clock).
Proof.
  revert last; induction clock as [|now rest IH]; intros last;
    cbn [clockInputs]; constructor; auto.
  cbn [snd]. unfold inputBurst. apply Forall_forall.
  intros c Hc. apply repeat_spec in Hc. subst c. reflexivity.
Qed.

(** X7.  [main] as written never leaves the valid state: from
    [{0, 1, true}] with ten [Accelerate 0.1] enqueued per frame, after
    every tick of every run, whatever the clock returns (stalls, a clock
    going back, any [int64_t] values) and whatever the uninitialised
    [previousState] holds, the state is valid and its position and
    velocity are at least 0. *)
Theorem main_never_invalid (garbage : SystemState) (start : Z) (clock : list Z) :
  Forall forward (mainStates garbage start clock)
  /\ forward (currentState
                (world (fst (runMain clock (mainInit garbage start))))).
Proof.
  unfold mainStates.
  destruct (runMain_runFrames clock (mainInit garbage start)) as [Ew Eo].
  rewrite Ew, Eo.
  apply runFrames_forward;
    [repeat split | constructor | apply clockInputs_gentle].
Qed.

(** ** The uninitialised [previousState] *)

Lemma tick_same_eq (a b : World) : sameSimulation a b -> tick a = tick b.
Proof.
  intros (Hs & Ha & Hq). unfold tick. now rewrite Hs, Ha, Hq.
Qed.

Lemma stepLoop_same_eq (n : nat) (a b : World) :
  sameSimulation a b -> stepLoop n a = stepLoop n b.
Proof.
  intros H. destruct n as [|n]; [reflexivity|]. cbn [stepLoop].
  destruct H as (Hs & Ha & Hq). rewrite Ha.
  destruct (FIXED_DT_SECONDS <=? timeAccumulator b); [|reflexivity].
  now rewrite (tick_same_eq a b) by (repeat split; assumption).
Qed.

Lemma frame_same_eq (dt : float) (burst : list Command) (a b : World) :
  sameSimulation a b ->
  ticks (snd (frame dt burst a)) <> [] ->
  frame dt burst a = frame dt burst b.
Proof.
  intros H. rewrite frame_ticks.
  assert (H1 : sameSimulation (setAccumulator (timeAccumulator a + dt) a)
                              (setAccumulator (timeAccumulator b + dt) b)).
  { destruct H as (Hs & Ha & Hq); unfold sameSimulation; cbn.
    rewrite Hs, Ha, Hq; auto. }
  unfold frame.
  rewrite (stepLoop_same_eq MAX_SIMULATION_STEPS_PER_FRAME _ _ H1).
  destruct (stepLoop MAX_SIMULATION_STEPS_PER_FRAME
              (setAccumulator (timeAccumulator b + dt) b)) as [|x l];
    [congruence | intros _].
  now rewrite !last_cons.
Qed.

(** X8.  The first tick overwrites the uninitialised [previousState]: two
    runs over the same deltas and bursts from the same initial state that
    differ only in what [previousState] held at the start agree from the
    first frame that runs a tick on, in everything: the worlds after each
    tick, the answers of the intake and the displayed states. *)
Theorem first_tick_erases_garbage
  (before after : list (float * list Command))
  (dtSeconds : float) (burst : list Command)
  (s0 garbage1 garbage2 : SystemState) :
  let w1 := fst (runFrames before (initWorld s0 garbage1)) in
  let w2 := fst (runFrames before (initWorld s0 garbage2)) in
  ticks (snd (frame dtSeconds burst w1)) <> [] ->
  runFrames ((dtSeconds, burst) :: after) w1
  = runFrames ((dtSeconds, burst) :: after) w2.
Proof.
  intros w1 w2 Hticks.
  assert (H : sameSimulation w1 w2).
  { apply runFrames_same. repeat split. }
  cbn [runFrames]. now rewrite (frame_same_eq dtSeconds burst w1 w2 H Hticks).
Qed.

(** [main]'s first frames, 0 and 5 ms after the start, run no tick; the
    frame 16 ms later does. *)
Lemma first_tick_erases_garbage_witness :
  ticks (snd (frame 0.016 inputBurst
                (fst (runFrames (clockInputs 0 [0; 5]%Z)
                        (initWorld initialState (mkState 7 7 false))))))
  <> []
  /\ runFrames [(0.016, inputBurst); (0.016, inputBurst)]
       (fst (runFrames (clockInputs 0 [0; 5]%Z)
               (initWorld initialState (mkState 7 7 false))))
     = runFrames [(0.016, inputBurst); (0.016, inputBurst)]
         (fst (runFrames (clockInputs 0 [0; 5]%Z)
                 (initWorld initialState (mkState 8 8 false)))).
Proof.
  assert (H : ticks (snd (frame 0.016 inputBurst
                (fst (runFrames (clockInputs 0 [0; 5]%Z)
                        (initWorld initialState (mkState 7 7 false))))))
              <> [])
    by (vm_compute; discriminate).
  split; [exact H|].
  exact (first_tick_erases_garbage (clockInputs 0 [0; 5]%Z)
           [(0.016, inputBurst)] 0.016 inputBurst initialState
           (mkState 7 7 false) (mkState 8 8 false) H).
Defined.

(** ** Ticks against accumulated time *)

(** X9.  More accumulated time never means fewer ticks: of two frames, the
    one whose accumulator after the addition of its delta is the larger
    (as binary64 values) runs at least as many ticks, whatever their
    states and queues.  Rounding in the repeated subtraction of
    [FIXED_DT_SECONDS] cannot reverse the order. *)
Theorem ticks_monotone_in_time
  (dt dt' : float) (burst burst' : list Command) (w w' : World) :
  (timeAccumulator w + dt <=? timeAccumulator w' + dt') = true ->
  length (ticks (snd (frame dt burst w)))
  <= length (ticks (snd (frame dt' burst' w'))).
Proof.
  intros H. rewrite !frame_ticks, !stepLoop_length.
  cbn [setAccumulator timeAccumulator]. now apply ticksOwed_mono.
Qed.

(** 30 ms alone run two ticks; 30 ms on top of 9 ms run three. *)
Lemma ticks_monotone_in_time_witness :
  (timeAccumulator (initWorld initialState initialState) + 0.03
   <=? timeAccumulator (mkWorld initialState initialState 0.009 []) + 0.03)
  = true
  /\ length (ticks (snd (frame 0.03 [] (initWorld initialState initialState))))
     <= length (ticks (snd (frame 0.03 inputBurst
                              (mkWorld initialState initialState 0.009 [])))).
Proof.
  split; [reflexivity|].
  apply (ticks_monotone_in_time 0.03 0.03 [] inputBurst
           (initWorld initialState initialState)
           (mkWorld initialState initialState 0.009 [])).
  reflexivity.
Defined.

(** X10.  For accumulated time that is at least 0, the cap is reached
    exactly when the time exceeds five ticks: the frame runs
    [MAX_SIMULATION_STEPS_PER_FRAME] ticks if and only if
    [5 * FIXED_DT_SECONDS < timeAccumulator + dtSeconds], and otherwise at
    most four.  Exactly five ticks of time (0.05 s) run four ticks. *)
Theorem cap_reached_iff_more_than_five_ticks
  (dtSeconds : float) (burst : list Command) (w : World) :
  (0 <=? timeAccumulator w + dtSeconds) = true ->
  (length (ticks (snd (frame dtSeconds burst w)))
     = MAX_SIMULATION_STEPS_PER_FRAME
   <-> (5 * FIXED_DT_SECONDS <? timeAccumulator w + dtSeconds) = true)
  /\ ((5 * FIXED_DT_SECONDS <? timeAccumulator w + dtSeconds) = false ->
      length (ticks (snd (frame dtSeconds burst w))) <= 4).
Proof.
  intros Hpos. rewrite frame_ticks, stepLoop_length.
  cbn [setAccumulator timeAccumulator].
  set (a := timeAccumulator w + dtSeconds) in *.
  assert (Low : (5 * FIXED_DT_SECONDS <? a) = false ->
                ticksOwed MAX_SIMULATION_STEPS_PER_FRAME a <= 4).
  { intros C.
    assert (L : (a <=? 5 * FIXED_DT_SECONDS) = true)
      by (apply Double.ltb_false_leb;
          [now apply Double.nonneg_not_nan | reflexivity | exact C]).
    apply (ticksOwed_mono MAX_SIMULATION_STEPS_PER_FRAME) in L. exact L. }
  split; [split|exact Low].
  - intros E. destruct (5 * FIXED_DT_SECONDS <? a) eqn:C; [reflexivity|].
    specialize (Low eq_refl). unfold MAX_SIMULATION_STEPS_PER_FRAME in *. lia.
  - intros C. now apply ticksOwed_above_cap.
Qed.

(** A stall clamped to 0.05 s on an empty accumulator: not more than five
    ticks of time, four ticks run. *)
Lemma cap_reached_iff_more_than_five_ticks_witness :
  (0 <=? timeAccumulator (initWorld initialState initialState)
         + MAX_DT_SECONDS) = true
  /\ (5 * FIXED_DT_SECONDS
      <? timeAccumulator (initWorld initialState initialState)
         + MAX_DT_SECONDS) = false
  /\ length (ticks (snd (frame MAX_DT_SECONDS inputBurst
                          (initWorld initialState initialState)))) = 4%nat
  /\ length (ticks (snd (frame MAX_DT_SECONDS inputBurst
                          (initWorld initialState initialState)))) <= 4.
Proof.
  split; [reflexivity|]. split; [reflexivity|].
  split; [vm_compute; reflexivity|].
  apply (proj2 (cap_reached_iff_more_than_five_ticks MAX_DT_SECONDS inputBurst
                  (initWorld initialState initialState) eq_refl)).
  reflexivity.
Defined.

(** ** Division and addition in binary64

    What [SFdiv] computes on non-negative operands, that dividing by a
    fixed positive number keeps the order, and that adding a non-negative
    number does not go below the other summand. *)

Module DoubleQuotient.
Import Double.

Local Open Scope Z_scope.

Lemma rneq_bounds (A C : Z) : A / C <= rneq A C <= A / C + 1.
Proof.
  unfold rneq. destruct (_ ?= _); [destruct (Z.even _)| |]; lia.
Qed.

Lemma rneq_mono (A C A' C' : Z) :
  0 < C -> 0 < C' -> 0 <= A -> A * C' <= A' * C ->
  rneq A C <= rneq A' C'.
Proof.
  intros HC HC' HA H.
  pose proof (Z.div_mod A C ltac:(lia)) as E1.
  pose proof (Z.div_mod A' C' ltac:(lia)) as E2.
  pose proof (Z.mod_pos_bound A C HC) as B1.
  pose proof (Z.mod_pos_bound A' C' HC') as B2.
  set (q := A / C) in *. set (r := A mod C) in *.
  set (q' := A' / C') in *. set (r' := A' mod C') in *.
  assert (Q : q <= q').
  { destruct (Z.le_gt_cases q q') as [|G]; [assumption|exfalso].
    assert (q' + 1 <= q) by lia.
    assert (A' * C < (q' + 1) * C' * C) by nia.
    assert ((q' + 1) * C' * C <= q * C * C') by nia.
    assert (q * C * C' <= A * C') by nia. lia. }
  pose proof (rneq_bounds A C). pose proof (rneq_bounds A' C').
  fold q in H0. fold q' in H1.
  destruct (Z.eq_dec q q') as [E|NE]; [|lia].
  assert (R : r * C' <= r' * C) by nia.
  unfold rneq. fold q q' r r'. rewrite <- E.
  destruct (Z.compare_spec (2 * r) C) as [c|c|c];
    destruct (Z.compare_spec (2 * r') C') as [c'|c'|c'];
    destruct (Z.even q); try lia; exfalso; nia.
Qed.

Lemma new_location_spec (C k : Z) :
  0 < C -> 0 <= k < C ->
  new_location C k
  = if k =? 0 then loc_Exact else loc_Inexact (2 * k ?= C).
Proof.
  intros HC Hk. unfold new_location, new_location_even, new_location_odd.
  destruct (Z.even C) eqn:Ev; [reflexivity|].
  destruct (k =? 0); [reflexivity|]. f_equal.
  assert (O : Z.odd C = true) by (rewrite <- Z.negb_even, Ev; reflexivity).
  apply Z.odd_spec in O. destruct O as [c Hc].
  destruct (Z.compare_spec (2 * k + 1) C);
    destruct (Z.compare_spec (2 * k) C); try reflexivity; lia.
Qed.

Lemma loc_of_record_of (m : Z) (l : location) :
  loc_of_shr_record (shr_record_of_loc m l) = l.
Proof. destruct l as [|[ | | ]]; reflexivity. Qed.

(** After [k+1] single shifts of a record: the quotient, the bit just
    shifted out, and whether anything below it, or the record's own
    location, was inexact. *)
Lemma shr_iter_from (k : nat) (M : Z) (r0 s0 : bool) :
  0 <= M ->
  Nat.iter (S k) shr_1 (Build_shr_record M r0 s0)
  = Build_shr_record (M / 2 ^ Z.of_nat (S k))
      (Z.odd (M / 2 ^ Z.of_nat k))
      (negb (M mod 2 ^ Z.of_nat k =? 0) || (r0 || s0)).
Proof.
  intros HM. induction k as [|k IH].
  - cbn [Nat.iter]. rewrite shr_1_spec by exact HM.
    rewrite Z.div2_div. cbn [Z.of_nat]. rewrite Z.pow_0_r, Z.div_1_r, Z.mod_1_r.
    reflexivity.
  - change (Nat.iter (S (S k)) shr_1 ?x) with (shr_1 (Nat.iter (S k) shr_1 x)).
    rewrite IH, shr_1_spec by (apply Z.div_pos; lia).
    rewrite Z.div2_div, Z.div_div by lia.
    replace (2 ^ Z.of_nat (S k) * 2) with (2 ^ Z.of_nat (S (S k)))
      by (rewrite (Nat2Z.inj_succ (S k)), Z.pow_succ_r; lia).
    f_equal.
    set (P := 2 ^ Z.of_nat k). assert (0 < P) by (apply Z.pow_pos_nonneg; lia).
    replace (2 ^ Z.of_nat (S k)) with (2 * P)
      by (rewrite Nat2Z.inj_succ, Z.pow_succ_r; subst P; lia).
    pose proof (Z.mod_pos_bound M P ltac:(lia)) as B1.
    pose proof (Zmod_odd (M / P)) as O.
    assert (EM : M mod (2 * P) = P * ((M / P) mod 2) + M mod P).
    { rewrite (Z.mul_comm 2 P), Z.rem_mul_r by lia. lia. }
    rewrite EM.
    destruct (Z.odd (M / P)); rewrite O.
    + destruct (Z.eqb_spec (M mod P) 0);
        destruct (Z.eqb_spec (P * 1 + M mod P) 0); cbn; try reflexivity; lia.
    + replace (P * 0 + M mod P) with (M mod P) by lia. reflexivity.
Qed.

(** Shifting the quotient [A / C], with the location of its remainder, [n]
    places to the right and rounding gives the nearest integer to
    [A / (C * 2^n)], ties to even. *)
Lemma shr_round_quotient (A C e n : Z) :
  0 <= A -> 0 < C -> 0 <= n ->
  let '(mrs, e') :=
    shr (shr_record_of_loc (A / C) (new_location C (A mod C))) e n in
  round_nearest_even (shr_m mrs) (loc_of_shr_record mrs) = rneq A (C * 2 ^ n)
  /\ e' = e + n.
Proof.
  intros HA HC Hn.
  pose proof (Z.mod_pos_bound A C HC) as Br.
  pose proof (Z.div_mod A C ltac:(lia)) as EA.
  assert (Hq : 0 <= A / C) by (apply Z.div_pos; lia).
  rewrite new_location_spec by lia.
  set (q := A / C) in *. set (r := A mod C) in *.
  destruct n as [|p|p]; [| |lia].
  - cbn [shr]. rewrite loc_of_record_of, shr_m_of_loc, Z.pow_0_r, Z.mul_1_r.
    split; [|lia]. unfold rneq. fold q r.
    destruct (Z.eqb_spec r 0) as [Z0|NZ]; cbn [round_nearest_even].
    + rewrite Z0. destruct (Z.compare_spec (2 * 0) C); lia.
    + destruct (2 * r ?= C); reflexivity.
  - cbn [shr]. split; [|reflexivity].
    rewrite iter_pos_nat.
    destruct (Pos2Nat.is_succ p) as [k Hk]. rewrite Hk.
    assert (En : Zpos p = Z.of_nat (S k)) by lia.
    set (l0 := if r =? 0 then loc_Exact else loc_Inexact (2 * r ?= C)).
    assert (Rec : exists r0 s0, shr_record_of_loc q l0 = Build_shr_record q r0 s0
                                /\ (r0 || s0) = negb (r =? 0)).
    { subst l0. destruct (Z.eqb_spec r 0); [exists false, false; split; reflexivity|].
      destruct (2 * r ?= C); eexists _, _; split; reflexivity. }
    destruct Rec as (r0 & s0 & -> & Er).
    rewrite shr_iter_from by exact Hq. rewrite Er, <- En.
    replace (Z.of_nat k) with (Zpos p - 1) by lia.
    set (n := Zpos p) in *. set (h := 2 ^ (n - 1)).
    assert (Hh : 0 < h) by (apply Z.pow_pos_nonneg; lia).
    assert (E2 : 2 ^ n = h * 2).
    { subst h. replace n with (Z.succ (n - 1)) at 1 by lia.
      rewrite Z.pow_succ_r; lia. }
    cbn [shr_m loc_of_shr_record].
    unfold rneq.
    assert (D : A / (C * 2 ^ n) = q / 2 ^ n) by (subst q; now rewrite Z.div_div by lia).
    assert (M : A mod (C * 2 ^ n) = r + C * (q mod 2 ^ n))
      by (subst q r; rewrite Z.rem_mul_r by lia; reflexivity).
    assert (T : q mod 2 ^ n = q mod h + h * ((q / h) mod 2))
      by (rewrite E2, Z.rem_mul_r by lia; reflexivity).
    pose proof (Z.mod_pos_bound q h Hh) as Bt.
    pose proof (Zmod_odd (q / h)) as O.
    rewrite D, M, T.
    set (t := q mod h) in *.
    destruct (Z.odd (q / h)); rewrite O.
    + destruct (Z.eqb_spec t 0) as [T0|TN]; destruct (Z.eqb_spec r 0) as [R0|RN];
        cbn [negb orb loc_of_shr_record round_nearest_even].
      * destruct (Z.compare_spec (2 * (r + C * (t + h * 1))) (C * 2 ^ n));
          first [reflexivity | exfalso; nia].
      * destruct (Z.compare_spec (2 * (r + C * (t + h * 1))) (C * 2 ^ n));
          first [reflexivity | exfalso; nia].
      * destruct (Z.compare_spec (2 * (r + C * (t + h * 1))) (C * 2 ^ n));
          first [reflexivity | exfalso; nia].
      * destruct (Z.compare_spec (2 * (r + C * (t + h * 1))) (C * 2 ^ n));
          first [reflexivity | exfalso; nia].
    + assert (L : 2 * (r + C * (t + h * 0)) < C * 2 ^ n) by nia.
      destruct (Z.compare_spec (2 * (r + C * (t + h * 0))) (C * 2 ^ n));
        [exfalso; lia | | exfalso; lia].
      destruct (negb (t =? 0) || negb (r =? 0)); reflexivity.
Qed.

Lemma Zdigits2_bounds (q : Z) :
  0 <= q -> 0 <= Zdigits2 q /\ q < 2 ^ Zdigits2 q
            /\ (0 < q -> 2 ^ (Zdigits2 q - 1) <= q).
Proof.
  intros H. destruct q as [|p|p]; [cbn; lia| |lia].
  cbn [Zdigits2]. pose proof (digits2_pos_bounds p). lia.
Qed.

Lemma shr_nonpos (mrs : shr_record) (e n : Z) : n <= 0 -> shr mrs e n = (mrs, e).
Proof. destruct n; [reflexivity|lia|reflexivity]. Qed.

(** What [binary_round_aux] makes of a quotient [A / C] with the location
    of its remainder, when the quotient is at least as fine as the format
    asks at its magnitude. *)
Lemma binary_round_aux_quotient (A C ex : Z) :
  0 <= A -> 0 < C ->
  let n := fexp prec emax (Zdigits2 (A / C) + ex) - ex in
  0 <= n ->
  0 <= rneq A (C * 2 ^ n) <= 2 ^ 53
  /\ binary_round_aux prec emax false (A / C) ex (new_location C (A mod C))
     = if rneq A (C * 2 ^ n) =? 2 ^ 53
       then finite_or_inf (2 ^ 52) (ex + n + 1)
       else finite_or_inf (rneq A (C * 2 ^ n)) (ex + n).
Proof.
  intros HA HC n Hn.
  assert (Hq : 0 <= A / C) by (apply Z.div_pos; lia).
  destruct (Zdigits2_bounds (A / C) Hq) as (D0 & DU & DL).
  assert (En : ex + n = Z.max (Zdigits2 (A / C) + ex - 53) (-1074))
    by (subst n; rewrite fexp_binary64; lia).
  assert (P : 0 < 2 ^ n) by (apply Z.pow_pos_nonneg; lia).
  assert (Q53 : A / (C * 2 ^ n) < 2 ^ 53).
  { rewrite <- Z.div_div by lia. apply Z.div_lt_upper_bound; [lia|].
    rewrite <- Z.pow_add_r by lia.
    eapply Z.lt_le_trans; [exact DU|]. apply Z.pow_le_mono_r; lia. }
  assert (Q0 : 0 <= A / (C * 2 ^ n)) by (apply Z.div_pos; nia).
  pose proof (rneq_bounds A (C * 2 ^ n)) as B.
  split; [lia|].
  unfold binary_round_aux, shr_fexp at 1. fold n.
  pose proof (shr_round_quotient A C ex n HA HC Hn) as S1.
  destruct (shr _ ex n) as [mrs1 e1]. destruct S1 as [-> ->].
  set (m1 := rneq A (C * 2 ^ n)) in *.
  assert (P52 : 2 ^ 52 = 4503599627370496) by reflexivity.
  assert (P53 : 2 ^ 53 = 9007199254740992) by reflexivity.
  destruct (Z.eqb_spec m1 (2 ^ 53)) as [E53|N53].
  - rewrite E53. unfold shr_fexp.
    change (Zdigits2 (2 ^ 53)) with 54. rewrite fexp_binary64.
    replace (Z.max (54 + (ex + n) - 53) (-1074) - (ex + n)) with 1 by lia.
    reflexivity.
  - unfold shr_fexp. rewrite fexp_binary64.
    destruct (Zdigits2_bounds m1 ltac:(lia)) as (M0 & MU & ML).
    assert (Zdigits2 m1 <= 53).
    { destruct (Z.le_gt_cases (Zdigits2 m1) 53) as [|G]; [assumption|exfalso].
      assert (0 < m1) by (destruct m1; [cbn in G; lia | lia | lia]).
      specialize (ML H).
      assert (2 ^ 53 <= 2 ^ (Zdigits2 m1 - 1)) by (apply Z.pow_le_mono_r; lia).
      lia. }
    rewrite shr_nonpos by lia. rewrite shr_m_of_loc. reflexivity.
Qed.

(** The quotient, its exponent and the location that [SFdiv] hands to the
    rounding, for a dividend of at most 53 bits. *)
Lemma SFdiv_core_spec (m1 : positive) (e1 : Z) (m2 : positive) (e2 : Z) :
  Zpos (digits2_pos m1) <= 53 ->
  exists s,
    0 <= s
    /\ SFdiv_core_binary prec emax (Zpos m1) e1 (Zpos m2) e2
       = ((Zpos m1 * 2 ^ s) / Zpos m2, e1 - e2 - s,
          new_location (Zpos m2) ((Zpos m1 * 2 ^ s) mod Zpos m2))
    /\ (-1074 < e1 - e2 - s -> 2 ^ 52 <= (Zpos m1 * 2 ^ s) / Zpos m2)
    /\ 0 <= fexp prec emax (Zdigits2 ((Zpos m1 * 2 ^ s) / Zpos m2)
                             + (e1 - e2 - s)) - (e1 - e2 - s).
Proof.
  intros D1.
  unfold SFdiv_core_binary. cbn [Zdigits2].
  set (d1 := Zpos (digits2_pos m1)) in *. set (d2 := Zpos (digits2_pos m2)).
  set (e' := Z.min (fexp prec emax (d1 + e1 - (d2 + e2))) (e1 - e2)).
  set (s := e1 - e2 - e').
  assert (Hs : 0 <= s) by (subst s e'; lia).
  exists s.
  assert (Em : (match s with
                | 0 => Zpos m1
                | Zpos _ => Z.shiftl (Zpos m1) s
                | Zneg _ => 0
                end) = Zpos m1 * 2 ^ s).
  { destruct s as [|p|p] eqn:Es; [rewrite Z.pow_0_r; lia | | lia].
    apply Z.shiftl_mul_pow2; lia. }
  rewrite Em.
  assert (Ee : e' = e1 - e2 - s) by (subst s; lia).
  set (A := Zpos m1 * 2 ^ s) in *.
  assert (P2 : -1074 < e1 - e2 - s -> 2 ^ 52 <= A / Zpos m2).
  { rewrite <- Ee. intros He.
    assert (F : e' = d1 + e1 - (d2 + e2) - 53)
      by (subst e'; rewrite fexp_binary64 in *; lia).
    assert (S : s = 53 - d1 + d2) by lia.
    pose proof (digits2_pos_bounds m1) as [L1 _]. fold d1 in L1.
    pose proof (digits2_pos_bounds m2) as [_ U2]. fold d2 in U2.
    assert (0 < d2) by (subst d2; lia).
    assert (0 < d1) by (subst d1; lia).
    apply Z.div_le_lower_bound; [lia|].
    assert (PA : 2 ^ (52 + d2) <= A).
    { subst A. replace (52 + d2) with ((d1 - 1) + s) by lia.
      rewrite Z.pow_add_r by lia.
      apply Z.mul_le_mono_nonneg_r; [apply Z.pow_nonneg; lia | exact L1]. }
    rewrite Z.pow_add_r in PA by lia.
    assert (0 < 2 ^ 52) by reflexivity. nia. }
  split; [exact Hs|]. split.
  - pose proof (Z.div_eucl_eq A (Zpos m2) ltac:(lia)) as Eq.
    unfold Z.div, Z.modulo.
    destruct (Z.div_eucl A (Zpos m2)) as [q r]. rewrite <- Ee. reflexivity.
  - split; [exact P2|].
    rewrite fexp_binary64.
    destruct (Z.le_gt_cases (e1 - e2 - s) (-1074)) as [Le|Gt]; [lia|].
    specialize (P2 Gt).
    assert (Hq : 0 <= A / Zpos m2) by (assert (0 < 2 ^ 52) by reflexivity; lia).
    destruct (Zdigits2_bounds _ Hq) as (_ & DU & _).
    assert (53 <= Zdigits2 (A / Zpos m2)).
    { destruct (Z.le_gt_cases 53 (Zdigits2 (A / Zpos m2))) as [|G]; [assumption|].
      assert (2 ^ Zdigits2 (A / Zpos m2) <= 2 ^ 52) by (apply Z.pow_le_mono_r; lia).
      lia. }
    lia.
Qed.

Lemma SFleb_zero_l (s : bool) (x : spec_float) :
  SFnonneg x = true -> SFleb (S754_zero s) x = true.
Proof. destruct x as [sx|sx| |sx m e]; try destruct sx; cbn; congruence. Qed.

Lemma SFleb_nonneg_r (x y : spec_float) :
  SFnonneg x = true -> SFleb x y = true -> SFnonneg y = true.
Proof.
  destruct x as [sx|sx| | sx mx ex], y as [sy|sy| |sy my ey];
    repeat match goal with s : bool |- _ => destruct s end;
    cbn; congruence.
Qed.

Lemma finite_or_inf_nonneg (m e : Z) :
  0 <= m -> SFnonneg (finite_or_inf m e) = true.
Proof.
  intros H. destruct m as [|p|p]; [reflexivity | | lia].
  cbn [finite_or_inf]. destruct (_ <=? _); reflexivity.
Qed.

(** Division by the same finite positive number keeps the order of
    canonical non-negative dividends. *)
Lemma SFdiv_mono (x x' : spec_float) (my : positive) (ey : Z) :
  let y := S754_finite false my ey in
  valid_binary x = true -> valid_binary x' = true ->
  SFnonneg x = true -> SFleb x x' = true ->
  SFleb (SFdiv prec emax x y) (SFdiv prec emax x' y) = true.
Proof.
  intros y Vx Vx' Nx Hle. subst y.
  pose proof (SFleb_nonneg_r x x' Nx Hle) as Nx'.
  pose proof (SFdiv_nonneg prec emax x' my ey Nx') as Rx'.
  destruct x as [s|s| |s m1 e1]; try discriminate.
  - (* x = 0 *)
    cbn [SFdiv]. now apply SFleb_zero_l.
  - (* x = +inf *)
    destruct s; [discriminate|].
    destruct x' as [s'|s'| |s' m1' e1']; try destruct s'; try discriminate.
    reflexivity.
  - destruct s; [discriminate|].
    destruct x' as [s'|s'| |s' m1' e1']; try destruct s'; try discriminate.
    + (* x' = +inf *)
      cbn [SFdiv xorb].
      pose proof (SFdiv_nonneg prec emax (S754_finite false m1 e1) my ey eq_refl) as R.
      now apply SFleb_infinity.
    + (* both finite *)
      destruct (valid_finite_digits _ _ _ _ _ Vx) as (_ & Dm & _).
      destruct (valid_finite_digits _ _ _ _ _ Vx') as (_ & Dm' & _).
      change prec with 53 in Dm, Dm'.
      pose proof (aligned_le m1 e1 m1' e1' e1 Vx Vx' (Z.le_refl _) Hle) as V.
      rewrite Z.sub_diag, Z.pow_0_r, Z.mul_1_r in V.
      assert (He : e1 <= e1') by (apply SFleb_finite in Hle; lia).
      cbn [SFdiv xorb] in *.
      destruct (SFdiv_core_spec m1 e1 my ey Dm) as (s & Hs & -> & P2 & P1).
      destruct (SFdiv_core_spec m1' e1' my ey Dm') as (s' & Hs' & -> & P2' & P1').
      set (A := Zpos m1 * 2 ^ s) in *. set (A' := Zpos m1' * 2 ^ s') in *.
      set (C := Zpos my) in *.
      set (e := e1 - ey - s) in *. set (e' := e1' - ey - s') in *.
      assert (HA : 0 <= A) by (subst A; apply Z.mul_nonneg_nonneg; [lia | apply Z.pow_nonneg; lia]).
      assert (HA' : 0 <= A') by (subst A'; apply Z.mul_nonneg_nonneg; [lia | apply Z.pow_nonneg; lia]).
      assert (HC : 0 < C) by (subst C; lia).
      destruct (binary_round_aux_quotient A C e HA HC P1) as [B R].
      destruct (binary_round_aux_quotient A' C e' HA' HC P1') as [B' R'].
      rewrite R, R'. clear R R'.
      set (n := fexp prec emax (Zdigits2 (A / C) + e) - e) in *.
      set (n' := fexp prec emax (Zdigits2 (A' / C) + e') - e') in *.
      set (m := rneq A (C * 2 ^ n)) in *. set (m' := rneq A' (C * 2 ^ n')) in *.
      assert (P52 : 2 ^ 52 = 4503599627370496) by reflexivity.
      assert (P53 : 2 ^ 53 = 9007199254740992) by reflexivity.
      destruct (Z.eq_dec m 0) as [M0|MN].
      { rewrite M0. change (0 =? 2 ^ 53) with false. cbn [finite_or_inf].
        apply SFleb_zero_l.
        destruct (_ =? _); apply finite_or_inf_nonneg; lia. }
      assert (Hq : 0 <= A / C) by (apply Z.div_pos; lia).
      assert (Hq' : 0 <= A' / C) by (apply Z.div_pos; lia).
      destruct (Zdigits2_bounds _ Hq) as (D0 & DU & DL).
      destruct (Zdigits2_bounds _ Hq') as (D0' & DU' & DL').
      set (dq := Zdigits2 (A / C)) in *. set (dq' := Zdigits2 (A' / C)) in *.
      assert (En : e + n = Z.max (dq + e - 53) (-1074))
        by (subst n; rewrite fexp_binary64; lia).
      assert (En' : e' + n' = Z.max (dq' + e' - 53) (-1074))
        by (subst n'; rewrite fexp_binary64; lia).
      set (dl := e1' - e1) in *.
      assert (Pdl : 0 < 2 ^ dl) by (apply Z.pow_pos_nonneg; lia).
      (* the order of the two values *)
      assert (VA : A * 2 ^ s' <= A' * 2 ^ (s + dl)).
      { subst A A'. rewrite Z.pow_add_r by lia.
        assert (0 < 2 ^ s) by (apply Z.pow_pos_nonneg; lia).
        assert (0 < 2 ^ s') by (apply Z.pow_pos_nonneg; lia).
        replace (Zpos m1 * 2 ^ s * 2 ^ s')
          with (Zpos m1 * (2 ^ s * 2 ^ s')) by ring.
        replace (Zpos m1' * 2 ^ s' * (2 ^ s * 2 ^ dl))
          with (Zpos m1' * 2 ^ dl * (2 ^ s * 2 ^ s')) by ring.
        apply Z.mul_le_mono_nonneg_r; [nia | exact V]. }
      (* the grids *)
      assert (F1 : e + n <= e' + n').
      { destruct (Z.eq_dec (A / C) 0) as [Q0|QN].
        - assert (e <= -1074) by lia.
          assert (dq = 0) by (subst dq; rewrite Q0; reflexivity). lia.
        - specialize (DL ltac:(lia)).
          pose proof (Z.mul_div_le A C HC) as L1.
          pose proof (Z.mul_succ_div_gt A' C HC) as U1.
          assert (dq + s' <= dq' + dl + s); [|subst e e' dl; lia].
          destruct (Z.le_gt_cases (dq + s') (dq' + dl + s)) as [|G]; [assumption|exfalso].
          assert (0 < dq) by (destruct (Z.le_gt_cases dq 0) as [N0|]; [|lia];
            assert (2 ^ dq <= 2 ^ 0) by (apply Z.pow_le_mono_r; lia);
            change (2 ^ 0) with 1 in *; lia).
          assert (K1 : 2 ^ (dq - 1) * C * 2 ^ s' <= A * 2 ^ s').
          { apply Z.mul_le_mono_nonneg_r; [apply Z.pow_nonneg; lia | nia]. }
          assert (K2 : A' * 2 ^ (s + dl) < 2 ^ dq' * C * 2 ^ (s + dl)).
          { apply Z.mul_lt_mono_pos_r; [apply Z.pow_pos_nonneg; lia | nia]. }
          assert (K3 : 2 ^ dq' * C * 2 ^ (s + dl) <= 2 ^ (dq - 1) * C * 2 ^ s').
          { replace (2 ^ dq' * C * 2 ^ (s + dl)) with (C * 2 ^ (dq' + (s + dl)))
              by (rewrite (Z.pow_add_r 2 dq') by lia; ring).
            replace (2 ^ (dq - 1) * C * 2 ^ s') with (C * 2 ^ (dq - 1 + s'))
              by (rewrite (Z.pow_add_r 2 (dq - 1)) by lia; ring).
            apply Z.mul_le_mono_nonneg_l; [lia|].
            apply Z.pow_le_mono_r; lia. }
          lia. }
      (* a normal grid has a full mantissa *)
      assert (F3 : -1074 < e' + n' -> 2 ^ 52 <= m').
      { intros G.
        assert (N' : n' = dq' - 53) by lia.
        assert (0 < A' / C).
        { destruct (Z.eq_dec (A' / C) 0) as [Q0|]; [|lia].
          assert (dq' = 0) by (subst dq'; rewrite Q0; reflexivity). lia. }
        specialize (DL' H).
        pose proof (rneq_bounds A' (C * 2 ^ n')) as Bq. fold m' in Bq.
        rewrite <- Z.div_div in Bq by (try lia; apply Z.pow_pos_nonneg; lia).
        assert (2 ^ 52 <= A' / C / 2 ^ n'); [|lia].
        apply Z.div_le_lower_bound; [apply Z.pow_pos_nonneg; lia|].
        rewrite <- Z.pow_add_r by lia.
        replace (n' + 52) with (dq' - 1) by lia. exact DL'. }
      destruct (Z.eq_dec (e + n) (e' + n')) as [EE|NE].
      * (* same grid *)
        assert (Pn : 0 < 2 ^ n) by (apply Z.pow_pos_nonneg; lia).
        assert (Pn' : 0 < 2 ^ n') by (apply Z.pow_pos_nonneg; lia).
        assert (N : s' + n = s + n' + dl) by (subst e e' dl; lia).
        assert (VN : A * 2 ^ n' <= A' * 2 ^ n).
        { subst A A'.
          rewrite <- !Z.mul_assoc, <- !Z.pow_add_r by lia.
          rewrite N, (Z.pow_add_r 2 (s + n') dl) by lia.
          replace (Zpos m1' * (2 ^ (s + n') * 2 ^ dl))
            with (Zpos m1' * 2 ^ dl * 2 ^ (s + n')) by ring.
          apply Z.mul_le_mono_nonneg_r; [apply Z.pow_nonneg; lia | exact V]. }
        assert (M : m <= m').
        { apply rneq_mono; [nia | nia | exact HA |].
          replace (A * (C * 2 ^ n')) with (A * 2 ^ n' * C) by ring.
          replace (A' * (C * 2 ^ n)) with (A' * 2 ^ n * C) by ring.
          apply Z.mul_le_mono_nonneg_r; [lia | exact VN]. }
        rewrite <- EE.
        destruct (Z.eqb_spec m (2 ^ 53)); destruct (Z.eqb_spec m' (2 ^ 53));
          apply finite_or_inf_le; lia.
      * specialize (F3 ltac:(lia)).
        destruct (Z.eqb_spec m (2 ^ 53)); destruct (Z.eqb_spec m' (2 ^ 53));
          apply finite_or_inf_le; lia.
Qed.

(** Rounding a canonical number written with [k] extra low zero bits gives
    the number back. *)
Lemma binary_round_canonical (m : positive) (e k : Z) (mk : positive) :
  valid_binary (S754_finite false m e) = true ->
  0 <= k -> -1074 <= e - k -> Zpos mk = Zpos m * 2 ^ k ->
  binary_round prec emax false mk (e - k) = S754_finite false m e.
Proof.
  intros V Hk He Emk.
  destruct (valid_finite_digits _ _ _ _ _ V) as (Ee & Dm & Dn).
  change (SpecFloat.emin prec emax) with (-1074) in Ee, Dn.
  change prec with 53 in Dm, Dn.
  assert (Bd : (e <=? emax - prec) = true).
  { cbn [valid_binary] in V. unfold bounded in V.
    apply andb_true_iff in V. apply V. }
  assert (Can : fexp prec emax (Zpos (digits2_pos m) + e) = e).
  { cbn [valid_binary] in V. unfold bounded, canonical_mantissa in V.
    apply andb_true_iff in V. destruct V as [V _]. now apply Z.eqb_eq in V. }
  pose proof (digits_shift m k mk Hk Emk) as Dk.
  destruct (Z.eq_dec k 0) as [K0|KN].
  - subst k. rewrite Z.pow_0_r, Z.mul_1_r in Emk.
    assert (mk = m) by lia. subst mk. rewrite Z.sub_0_r.
    destruct (binary_round_small m e Ee Dm) as [_ ->].
    rewrite Can, Z.sub_diag, Z.pow_0_r, Z.mul_1_r.
    cbn [finite_or_inf]. now rewrite Bd.
  - specialize (Dn ltac:(lia)).
    destruct (binary_round_large mk (e - k) k He ltac:(lia) ltac:(lia)) as [_ ->].
    assert (R : rne (Zpos mk) k = Zpos m).
    { unfold rne. rewrite Emk.
      assert (0 < 2 ^ k) by (apply Z.pow_pos_nonneg; lia).
      assert (0 < 2 ^ (k - 1)) by (apply Z.pow_pos_nonneg; lia).
      rewrite Z.mod_mul, Z.div_mul by lia.
      destruct (Z.ltb_spec 0 (2 ^ (k - 1))); [reflexivity | lia]. }
    rewrite R.
    pose proof (digits2_pos_bounds m) as [_ U]. rewrite Dn in U.
    destruct (Z.eqb_spec (Zpos m) (2 ^ 53)); [lia|].
    replace (e - k + k) with e by lia.
    cbn [finite_or_inf]. now rewrite Bd.
Qed.

Lemma SFleb_refl_nonneg (x : spec_float) : SFnonneg x = true -> SFleb x x = true.
Proof.
  destruct x as [s|s| |s m e]; try destruct s; try discriminate; try reflexivity.
  intros _. apply SFleb_finite. right. split; [reflexivity | lia].
Qed.

(** Adding a non-negative number does not go below the other summand. *)
Lemma SFadd_ge (x c : spec_float) :
  valid_binary x = true -> valid_binary c = true ->
  SFnonneg x = true -> SFnonneg c = true ->
  SFleb c (SFadd prec emax x c) = true.
Proof.
  intros Vx Vc Nx Nc.
  destruct c as [sc|sc| |sc mc ec]; try discriminate.
  - apply SFleb_zero_l. now apply SFadd_nonneg.
  - destruct sc; [discriminate|].
    destruct x as [sx|sx| |sx m e]; try destruct sx; try discriminate;
      reflexivity.
  - destruct sc; [discriminate|].
    destruct x as [sx|sx| |sx m e]; try destruct sx; try discriminate;
      try reflexivity; try (cbn [SFadd]; now apply SFleb_refl_nonneg).
    cbn [SFadd cond_Zopp].
    destruct (valid_finite_digits _ _ _ _ _ Vx) as (Ee & _ & _).
    destruct (valid_finite_digits _ _ _ _ _ Vc) as (Ec & _ & _).
    change (SpecFloat.emin prec emax) with (-1074) in Ee, Ec.
    set (ez := Z.min e ec).
    destruct (shl_align_value m e ez ltac:(lia)) as (mz & -> & Vz).
    destruct (shl_align_value mc ec ez ltac:(lia)) as (mcz & -> & Vcz).
    cbn [fst].
    pose proof (binary_round_canonical mc ec (ec - ez) mcz Vc ltac:(lia) ltac:(lia) Vcz) as Id.
    replace (ec - (ec - ez)) with ez in Id by lia.
    rewrite <- Id at 1.
    change (binary_round prec emax false mcz ez)
      with (binary_normalize prec emax (Zpos mcz) ez false).
    apply binary_normalize_mono; lia.
Qed.

(** Equal in the order of [SFcompare] to a finite non-zero number is
    equal. *)
Lemma SFleb_antisym_finite (x : spec_float) (m : positive) (e : Z) :
  SFleb x (S754_finite false m e) = true ->
  SFleb (S754_finite false m e) x = true ->
  x = S754_finite false m e.
Proof.
  destruct x as [s|s| |s mx ex]; try destruct s; try discriminate.
  rewrite !SFleb_finite. intros H1 H2.
  assert (ex = e) by lia. assert (mx = m) by lia. now subst.
Qed.

Lemma SFltb_prev (x : spec_float) (m : positive) (e : Z) :
  SFnonneg x = true ->
  SFltb x (S754_finite false (Pos.succ m) e) = true ->
  SFleb x (S754_finite false m e) = true.
Proof.
  destruct x as [s|s| |s mx ex]; try destruct s; try discriminate;
    try reflexivity.
  intros _. rewrite SFleb_finite. unfold SFltb; cbn [SFcompare].
  change (Pos.compare_cont Eq mx (Pos.succ m)) with (Pos.compare mx (Pos.succ m)).
  destruct (Z.compare_spec ex e) as [C|C|C]; try discriminate; [|lia].
  destruct (Pos.compare_spec mx (Pos.succ m)) as [Cm|Cm|Cm]; try discriminate. lia.
Qed.

Lemma SFleb_ltb_trans (x : spec_float) (m : positive) (e : Z) (m' : positive) (e' : Z) :
  SFnonneg x = true ->
  SFleb x (S754_finite false m e) = true ->
  SFltb (S754_finite false m e) (S754_finite false m' e') = true ->
  SFltb x (S754_finite false m' e') = true.
Proof.
  destruct x as [s|s| |s mx ex]; try destruct s; try discriminate;
    try reflexivity.
  intros _. rewrite SFleb_finite. unfold SFltb; cbn [SFcompare].
  change (Pos.compare_cont Eq m m') with (Pos.compare m m').
  change (Pos.compare_cont Eq mx m') with (Pos.compare mx m').
  destruct (Z.compare_spec e e') as [C|C|C]; try discriminate;
    destruct (Z.compare_spec ex e') as [C'|C'|C']; try reflexivity; try lia.
  destruct (Pos.compare_spec m m') as [Cm|Cm|Cm]; try discriminate.
  destruct (Pos.compare_spec mx m') as [Cm'|Cm'|Cm']; try reflexivity; lia.
Qed.

Lemma SFltb_leb (x y : spec_float) : SFltb x y = true -> SFleb x y = true.
Proof.
  unfold SFltb, SFleb. destruct (SFcompare x y) as [[ | | ]|]; congruence.
Qed.

Lemma SFleb_not_ltb (x y : spec_float) : SFleb x y = true -> SFltb y x = false.
Proof.
  unfold SFltb, SFleb. rewrite (SFcompare_antisym x y).
  destruct (SFcompare x y) as [[ | | ]|]; cbn; congruence.
Qed.

Local Close Scope Z_scope.

Lemma div_mono (x x' y : float) (my : positive) (ey : Z) :
  Prim2SF y = S754_finite false my ey ->
  (0 <=? x) = true -> (x <=? x') = true -> (x / y <=? x' / y) = true.
Proof.
  intros Ey. rewrite leb_zero, !leb_spec, !div_spec, Ey.
  apply SFdiv_mono; apply Prim2SF_valid.
Qed.

Lemma of_uint63_mono (n n' : PrimInt63.int) :
  (Uint63.to_Z n <= Uint63.to_Z n')%Z ->
  (of_uint63 n <=? of_uint63 n') = true.
Proof.
  intros H. rewrite leb_spec, !of_uint63_spec.
  apply binary_normalize_mono; [lia|].
  pose proof (Uint63.to_Z_bounded n). lia.
Qed.

Lemma add_ge (x c : float) :
  (0 <=? x) = true -> (0 <=? c) = true -> (c <=? x + c) = true.
Proof.
  rewrite !leb_zero, leb_spec, add_spec.
  intros; apply SFadd_ge; auto using Prim2SF_valid.
Qed.

Lemma leb_antisym_finite (x c : float) (m : positive) (e : Z) :
  Prim2SF c = S754_finite false m e ->
  (x <=? c) = true -> (c <=? x) = true -> x = c.
Proof.
  intros Ec. rewrite !leb_spec, Ec. intros H1 H2.
  apply Prim2SF_inj. rewrite Ec. now apply SFleb_antisym_finite.
Qed.

Lemma ltb_prev (x c p : float) (m : positive) (e : Z) :
  Prim2SF p = S754_finite false m e ->
  Prim2SF c = S754_finite false (Pos.succ m) e ->
  (0 <=? x) = true -> (x <? c) = true -> (x <=? p) = true.
Proof.
  intros Ep Ec. rewrite leb_zero, ltb_spec, leb_spec, Ep, Ec. apply SFltb_prev.
Qed.

Lemma leb_ltb_trans (x y z : float) (m : positive) (e : Z) (m' : positive) (e' : Z) :
  Prim2SF y = S754_finite false m e ->
  Prim2SF z = S754_finite false m' e' ->
  (0 <=? x) = true -> (x <=? y) = true -> (y <? z) = true -> (x <? z) = true.
Proof.
  intros Ey Ez. rewrite leb_zero, leb_spec, !ltb_spec, Ey, Ez.
  apply SFleb_ltb_trans.
Qed.

Lemma ltb_leb (x y : float) : (x <? y) = true -> (x <=? y) = true.
Proof. rewrite ltb_spec, leb_spec. apply SFltb_leb. Qed.

Lemma leb_not_ltb (x y : float) : (x <=? y) = true -> (y <? x) = false.
Proof. rewrite ltb_spec, leb_spec. apply SFleb_not_ltb. Qed.

End DoubleQuotient.

(** ** The clamp and the blend factor *)


Lemma double_of_int64_mono (z z' : Z) :
  (0 <= z <= z')%Z -> (z' < 2 ^ 63)%Z ->
  (double_of_int64 z <=? double_of_int64 z') = true.
Proof.
  intros H H'. unfold double_of_int64.
  destruct (Z.ltb_spec z 0); [lia|]. destruct (Z.ltb_spec z' 0); [lia|].
  apply DoubleQuotient.of_uint63_mono.
  rewrite !Uint63.of_Z_spec.
  change Uint63.wB with (2 ^ 63)%Z.
  rewrite !Z.mod_small by lia. lia.
Qed.

Lemma dtSeconds_mono (z z' : Z) :
  (0 <= z <= z')%Z -> (z' < 2 ^ 63)%Z ->
  (0 <=? double_of_int64 z / 1000) = true
  /\ (double_of_int64 z / 1000 <=? double_of_int64 z' / 1000) = true.
Proof.
  intros H H'.
  assert (N : (0 <=? double_of_int64 z) = true).
  { unfold double_of_int64. destruct (Z.ltb_spec z 0); [lia|].
    apply Double.of_uint63_nonneg. }
  split.
  - now apply (Double.div_nonneg _ 1000 8796093022208000 (-43)).
  - apply (DoubleQuotient.div_mono _ _ _ 8796093022208000 (-43)); auto.
    now apply double_of_int64_mono.
Qed.

Lemma clampDt_mono (z z' : Z) :
  (0 <= z <= z')%Z -> (z' < 2 ^ 63)%Z ->
  (clampDt z <=? clampDt z') = true.
Proof.
  intros H H'. destruct (dtSeconds_mono z z' H H') as [N M].
  destruct (clampDt_bounds z ltac:(lia)) as [B0 B1].
  unfold clampDt in *.
  set (x := double_of_int64 z / 1000) in *.
  set (x' := double_of_int64 z' / 1000) in *.
  destruct (MAX_DT_SECONDS <? x') eqn:C'; [exact B1|].
  destruct (MAX_DT_SECONDS <? x) eqn:C; [|exact M].
  apply (Double.leb_trans_nonneg _ x); [reflexivity | now apply DoubleQuotient.ltb_leb | exact M].
Qed.

Lemma clampDt_small (z : Z) :
  (0 <= z <= 50)%Z -> clampDt z = double_of_int64 z / 1000.
Proof.
  intros H. destruct (dtSeconds_mono z 50 ltac:(lia) ltac:(lia)) as [_ M].
  unfold clampDt.
  change (double_of_int64 50 / 1000) with MAX_DT_SECONDS in M.
  now rewrite (DoubleQuotient.leb_not_ltb _ _ M).
Qed.

Lemma clampDt_large (z : Z) :
  (50 <= z < 2 ^ 63)%Z -> clampDt z = MAX_DT_SECONDS.
Proof.
  intros H. destruct (dtSeconds_mono 50 z ltac:(lia) ltac:(lia)) as [_ M].
  change (double_of_int64 50 / 1000) with MAX_DT_SECONDS in M.
  destruct (dtSeconds_mono z z ltac:(lia) ltac:(lia)) as [N _].
  unfold clampDt.
  destruct (MAX_DT_SECONDS <? double_of_int64 z / 1000) eqn:C; [reflexivity|].
  apply (DoubleQuotient.leb_antisym_finite _ _ 7205759403792794 (-57)); [reflexivity| |exact M].
  apply Double.ltb_false_leb; [now apply Double.nonneg_not_nan | reflexivity | exact C].
Qed.

Lemma alpha_range (a : float) :
  (0 <=? a) = true -> (a <? FIXED_DT_SECONDS) = true ->
  (0 <=? a / FIXED_DT_SECONDS) = true /\ (a / FIXED_DT_SECONDS <? 1) = true.
Proof.
  intros N L.
  assert (D : (0 <=? a / FIXED_DT_SECONDS) = true)
    by now apply (Double.div_nonneg _ _ 5764607523034235 (-59)).
  split; [exact D|].
  assert (P : (a <=? 0x1.47ae147ae147ap-7) = true).
  { apply (DoubleQuotient.ltb_prev a FIXED_DT_SECONDS _ 5764607523034234 (-59)); auto;
      reflexivity. }
  apply (DoubleQuotient.div_mono _ _ FIXED_DT_SECONDS 5764607523034235 (-59)) in P;
    [|reflexivity|exact N].
  eapply (DoubleQuotient.leb_ltb_trans _ _ 1); [| |exact D|exact P|]; reflexivity.
Qed.

(** X11.  For an elapsed time [dtMs] that is not negative (and fits
    [int64_t]): up to 50 ms the clamp of main.cpp:104-106 leaves
    [dtMs / 1000.0] as it is, and from 50 ms on the frame's delta is exactly
    [MAX_DT_SECONDS].  At 50 ms both hold: [50 / 1000.0] is the double
    [0.05]. *)
Theorem clamp_passes_or_saturates (dtMs : Z) :
  (0 <= dtMs < 2 ^ 63)%Z ->
  ((dtMs <= 50)%Z -> clampDt dtMs = double_of_int64 dtMs / 1000)
  /\ ((50 <= dtMs)%Z -> clampDt dtMs = MAX_DT_SECONDS).
Proof.
  intros H; split; intros H'.
  - apply clampDt_small; lia.
  - apply clampDt_large; lia.
Qed.

(** 16 ms pass through, a stall of ten seconds is cut to 0.05 s. *)
Lemma clamp_passes_or_saturates_witness :
  clampDt 16 = 0.016 /\ clampDt 10000 = MAX_DT_SECONDS.
Proof.
  split.
  - exact (proj1 (clamp_passes_or_saturates 16 ltac:(lia)) ltac:(lia)).
  - exact (proj2 (clamp_passes_or_saturates 10000 ltac:(lia)) ltac:(lia)).
Defined.

(** X12.  The delta a frame adds to the accumulator (main.cpp:99-107) never
    decreases when more milliseconds have passed: conversion to double,
    division by 1000.0 and the clamp all keep the order. *)
Theorem clamp_monotone (dtMs dtMs' : Z) :
  (0 <= dtMs <= dtMs')%Z -> (dtMs' < 2 ^ 63)%Z ->
  (clampDt dtMs <=? clampDt dtMs') = true.
Proof. apply clampDt_mono. Qed.

Lemma clamp_monotone_witness :
  (clampDt 16 <=? clampDt 17) = true.
Proof. apply (clamp_monotone 16 17); lia. Defined.

Lemma frameEnds_le (inputs : list (float * list Command)) (w : World) :
  Forall (fun e => (fst e <= MAX_SIMULATION_STEPS_PER_FRAME)%nat)
         (frameEnds inputs w).
Proof.
  revert w; induction inputs as [|[dt burst] rest IH]; intros w;
    cbn [frameEnds]; [constructor|].
  pose proof (frame_ticks dt burst w) as Et.
  destruct (frame dt burst w) as [w' out]; cbn [snd] in Et.
  constructor; [|apply IH].
  cbn [fst]. rewrite Et. apply stepLoop_le.
Qed.

(** X13.  In every run of [main] under a clock that never goes back, the
    blend factor [alpha = timeAccumulator / FIXED_DT_SECONDS] that
    main.cpp:137 hands to [interpolateState] lies in [0, 1) at the end of
    every frame, whether the frame stopped on the time condition or on the
    step cap. *)
Theorem blend_factor_in_unit_interval
  (garbage : SystemState) (start : Z) (clock : list Z) :
  steadyClock start clock ->
  Forall (fun e => let alpha := snd e / FIXED_DT_SECONDS in
                   (0 <=? alpha) = true /\ (alpha <? 1) = true)
         (frameEnds (clockInputs start clock) (world (mainInit garbage start))).
Proof.
  intros Hclock.
  pose proof (runFrames_accumulator (clockInputs start clock)
                (world (mainInit garbage start))
                (clockInputs_nonneg _ _ Hclock) eq_refl) as [_ HE].
  pose proof (frameEnds_le (clockInputs start clock)
                (world (mainInit garbage start))) as HL.
  rewrite Forall_forall in *. intros e He.
  destruct (HE e He) as (H0 & Hlt & Hcap). specialize (HL e He).
  cbv zeta.
  destruct (Nat.eq_dec (fst e) MAX_SIMULATION_STEPS_PER_FRAME) as [E|N].
  - rewrite (Hcap E). split; reflexivity.
  - apply alpha_range; [exact H0 | apply Hlt; lia].
Qed.

Lemma blend_factor_in_unit_interval_witness :
  steadyClock 0 [0; 500; 516; 532]%Z
  /\ Forall (fun e => let alpha := snd e / FIXED_DT_SECONDS in
                      (0 <=? alpha) = true /\ (alpha <? 1) = true)
       (frameEnds (clockInputs 0 [0; 500; 516; 532]%Z)
          (world (mainInit initialState 0))).
Proof.
  assert (H : steadyClock 0 [0; 500; 516; 532]%Z) by (cbn; lia).
  split; [exact H|].
  exact (blend_factor_in_unit_interval initialState 0 [0; 500; 516; 532]%Z H).
Defined.

(** X14.  A frame of [main] that starts with a non-negative accumulator
    makes progress with the time that has passed: when at least 10 ms have
    passed since the last sample it runs at least one tick, and when at
    least 50 ms have passed it runs at least four (not five: the clamped
    0.05 s alone holds only four ticks of 0.01 s in binary64). *)
Theorem frame_progress (last now : Z) (w : World) :
  (0 <=? timeAccumulator w) = true ->
  (last <= now)%Z -> (now - last < 2 ^ 63)%Z ->
  let k := length (ticks (fst (snd (mainFrame now (mkMain last w))))) in
  ((10 <= now - last)%Z -> (1 <= k)%nat)
  /\ ((50 <= now - last)%Z -> (4 <= k)%nat).
Proof.
  intros Hacc Hle Hov k.
  assert (Ek : k = ticksOwed MAX_SIMULATION_STEPS_PER_FRAME
                     (timeAccumulator w + clampDt (now - last)%Z)).
  { subst k. destruct (mainFrame_frame now (mkMain last w)) as [_ ->].
    cbn [lastTickMs world]. rewrite wrap64_small by lia.
    rewrite frame_ticks, stepLoop_length. reflexivity. }
  destruct (clampDt_bounds (now - last)%Z ltac:(lia)) as [D0 _].
  pose proof (DoubleQuotient.add_ge _ _ Hacc D0) as G.
  pose proof (ticksOwed_mono MAX_SIMULATION_STEPS_PER_FRAME _ _ G) as M.
  rewrite <- Ek in M.
  split; intros H.
  - pose proof (clampDt_mono 10 (now - last) ltac:(lia) Hov) as C.
    pose proof (ticksOwed_mono MAX_SIMULATION_STEPS_PER_FRAME _ _ C) as M'.
    change (ticksOwed MAX_SIMULATION_STEPS_PER_FRAME (clampDt 10)) with 1%nat in M'.
    lia.
  - pose proof (clampDt_mono 50 (now - last) ltac:(lia) Hov) as C.
    pose proof (ticksOwed_mono MAX_SIMULATION_STEPS_PER_FRAME _ _ C) as M'.
    change (ticksOwed MAX_SIMULATION_STEPS_PER_FRAME (clampDt 50)) with 4%nat in M'.
    lia.
Qed.

(** The first frame of [main] after a stall of 80 ms runs four ticks. *)
Lemma frame_progress_witness :
  length (ticks (fst (snd (mainFrame 80 (mainInit initialState 0))))) = 4%nat
  /\ (4 <= length (ticks (fst (snd (mainFrame 80 (mainInit initialState 0))))))%nat.
Proof.
  split; [vm_compute; reflexivity|].
  exact (proj2 (frame_progress 0 80 (initWorld initialState initialState)
                  eq_refl ltac:(lia) ltac:(lia)) ltac:(lia)).
Defined.

(** ** The end points of the interpolation *)

Module DoubleUnit.
Import Double DoubleQuotient.

Local Open Scope Z_scope.

(** Multiplying a positive finite number by 1 is exact. *)
Lemma SFmul_one_r (m : positive) (e : Z) :
  valid_binary (S754_finite false m e) = true ->
  SFmul prec emax (S754_finite false m e)
    (S754_finite false 4503599627370496 (-52))
  = S754_finite false m e.
Proof.
  intros V.
  destruct (valid_finite_digits _ _ _ _ _ V) as (Ee & Dm & Dn).
  assert (Bd : (e <=? emax - prec) = true).
  { cbn [valid_binary] in V. unfold bounded in V.
    apply andb_true_iff in V. apply V. }
  assert (Can : fexp prec emax (Zpos (digits2_pos m) + e) = e).
  { cbn [valid_binary] in V. unfold bounded, canonical_mantissa in V.
    apply andb_true_iff in V. destruct V as [V _]. now apply Z.eqb_eq in V. }
  cbn [SFmul xorb].
  set (A := Zpos (m * 4503599627370496)).
  assert (EA : A = Zpos m * 2 ^ 52) by (subst A; rewrite Pos2Z.inj_mul; reflexivity).
  pose proof (digits_shift m 52 (m * 4503599627370496) ltac:(lia) EA) as DA.
  pose proof (binary_round_aux_quotient A 1 (e + -52) ltac:(lia) ltac:(lia)) as Q.
  rewrite Z.div_1_r, Z.mod_1_r in Q.
  change (new_location 1 0) with loc_Exact in Q.
  assert (En : fexp prec emax (Zdigits2 A + (e + -52)) - (e + -52) = 52).
  { subst A. cbn [Zdigits2]. rewrite DA.
    replace (Zpos (digits2_pos m) + 52 + (e + -52))
      with (Zpos (digits2_pos m) + e) by lia.
    rewrite Can. lia. }
  cbv zeta in Q. rewrite En in Q. destruct (Q ltac:(lia)) as [_ ->].
  assert (R : rneq A (1 * 2 ^ 52) = Zpos m).
  { unfold rneq. rewrite Z.mul_1_l, EA, Z.mod_mul, Z.div_mul by lia.
    reflexivity. }
  rewrite R.
  pose proof (digits2_pos_bounds m) as [_ U].
  assert (Zpos m < 2 ^ 53).
  { eapply Z.lt_le_trans; [exact U|]. apply Z.pow_le_mono_r; [lia|].
    change prec with 53 in Dm. exact Dm. }
  destruct (Z.eqb_spec (Zpos m) (2 ^ 53)); [lia|].
  replace (e + -52 + 52) with e by lia.
  cbn [finite_or_inf]. now rewrite Bd.
Qed.

Local Close Scope Z_scope.

Lemma ordinary_cases (x : float) :
  ordinary x = true ->
  Prim2SF x = S754_zero false
  \/ exists m e, Prim2SF x = S754_finite false m e.
Proof.
  unfold ordinary. destruct (Prim2SF x) as [s|s| |s m e]; try discriminate;
    destruct s; try discriminate; intros _; [left | right; eauto]; reflexivity.
Qed.

(** [p * 1 + c * 0] is [p]. *)
Lemma blend_left (p c : float) :
  ordinary p = true -> ordinary c = true -> p * 1 + c * 0 = p.
Proof.
  intros Hp Hc. apply Prim2SF_inj.
  rewrite add_spec, !mul_spec. unfold SF64add, SF64mul.
  change (Prim2SF 1) with (S754_finite false 4503599627370496 (-52)).
  change (Prim2SF 0) with (S754_zero false).
  pose proof (Prim2SF_valid p) as Vp.
  destruct (ordinary_cases p Hp) as [Ep|(m & e & Ep)];
    destruct (ordinary_cases c Hc) as [Ec|(m' & e' & Ec)];
    rewrite Ep, Ec in *; try reflexivity.
  - rewrite (SFmul_one_r m e Vp). reflexivity.
  - rewrite (SFmul_one_r m e Vp). reflexivity.
Qed.

(** [p * 0 + c * 1] is [c]. *)
Lemma blend_right (p c : float) :
  ordinary p = true -> ordinary c = true -> p * 0 + c * 1 = c.
Proof.
  intros Hp Hc. apply Prim2SF_inj.
  rewrite add_spec, !mul_spec. unfold SF64add, SF64mul.
  change (Prim2SF 1) with (S754_finite false 4503599627370496 (-52)).
  change (Prim2SF 0) with (S754_zero false).
  pose proof (Prim2SF_valid c) as Vc.
  destruct (ordinary_cases p Hp) as [Ep|(m & e & Ep)];
    destruct (ordinary_cases c Hc) as [Ec|(m' & e' & Ec)];
    rewrite Ep, Ec in *; try reflexivity.
  - rewrite (SFmul_one_r m' e' Vc). reflexivity.
  - rewrite (SFmul_one_r m' e' Vc). reflexivity.
Qed.

End DoubleUnit.

(** X15.  The end points of [interpolateState] (main.cpp:82-87): when the
    positions and velocities of both states are finite with the sign bit
    clear, [alpha = 0] gives the position and velocity of [prev] (with the
    [valid] flag of [curr]) and [alpha = 1] gives [curr], with no rounding
    error.  A frame that ends with an empty accumulator, as after the step
    cap, therefore shows [previousState]. *)
Theorem interpolation_endpoints (prev curr : SystemState) :
  ordinary (position prev) = true -> ordinary (velocity prev) = true ->
  ordinary (position curr) = true -> ordinary (velocity curr) = true ->
  interpolateState prev curr 0
  = mkState (position prev) (velocity prev) (valid curr)
  /\ interpolateState prev curr 1 = curr.
Proof.
  intros Pp Pv Cp Cv. unfold interpolateState.
  change (1 - 0) with 1. change (1 - 1) with 0.
  rewrite !DoubleUnit.blend_left, !DoubleUnit.blend_right by assumption.
  split; [reflexivity | destruct curr; reflexivity].
Qed.

Lemma interpolation_endpoints_witness :
  interpolateState (mkState 0.25 1.1 true) (mkState 0.261 1.1 false) 0
  = mkState 0.25 1.1 false
  /\ interpolateState (mkState 0.25 1.1 true) (mkState 0.261 1.1 false) 1
     = mkState 0.261 1.1 false.
Proof.
  exact (interpolation_endpoints (mkState 0.25 1.1 true)
           (mkState 0.261 1.1 false) eq_refl eq_refl eq_refl eq_refl).
Defined.
